(** * fluxio-parser: the Pass state and the resource decorators

    A shallow embedding of [fluxio_parser/states/pass_.py] and
    [fluxio_parser/resource_decorators.py].

    - Python objects that the code only passes around (syntax nodes, literal
      values, exceptions) are inductive types.
    - The state graph is a [networkx.DiGraph]; the operations the code calls
      on it are modelled on an insertion-ordered node list and edge list, the
      orders in which networkx iterates.
    - Exceptions are the left summand of [result]. *)

From Stdlib Require Import ZArith String Ascii List Lia.
From stdpp Require Import base tactics option list strings gmap.

#[local] Set Warnings "-register-all".

Local Open Scope string_scope.
Local Open Scope list_scope.

(** ** Python values and syntax nodes *)

(** Values that a literal of the source language can denote. *)
Inductive pyvalue : Type :=
| PNone
| PBool (b : bool)
| PInt (z : Z)
| PStr (s : string)
| PBytes (s : string)
| PList (items : list pyvalue)
| PTuple (items : list pyvalue)
| PSet (items : list pyvalue)
| PDict (items : list (pyvalue * pyvalue)).

Inductive unaryop : Type := UAdd | USub | Not | Invert.

Inductive operator : Type := Add | Sub | Mult | Div | Mod.

(** Expression nodes of the [ast] module, in the shape the repository uses
    them ([ast.Str], [ast.Name], [ast.Dict]).  Number literals are integers
    here; float and complex literals are not represented.  [Call] and
    [Lambda] are the two expression classes with an [args] attribute: the
    argument list of a call, the [ast.arguments] object of a lambda (its
    parameter names here).  The classes left out (comparisons, boolean
    operations, conditionals, comprehensions, formatted strings) have no
    [args] attribute and are no literals. *)
Inductive expr : Type :=
| Num (n : Z)
| Str (s : string)
| Bytes (s : string)
| NameConstant (value : option bool)   (* True, False; None is [None] *)
| Ellipsis
| Name (id : string)
| List (elts : list expr)
| Tuple (elts : list expr)
| Set_ (elts : list expr)
| Dict (keys : list (option expr)) (values : list expr)
| UnaryOp (op : unaryop) (operand : expr)
| BinOp (left : expr) (op : operator) (right : expr)
| Call (func : expr) (args : list expr) (keywords : list (option string * expr))
| Lambda (params : list string) (body : expr)
| Attribute (value : expr) (attr : string)
| Subscript (value : expr) (slice : expr).

(** Statement nodes.  [Pass], [Assign], [AugAssign] and [Expr] are origins
    of a Pass state: the no-op, an assignment or augmented assignment to
    [data], an update of [data]; [Return] stands for the other statement
    classes with a [value] attribute, which may be [None], and [Delete],
    [Break] and [Continue] for those without one. *)
Inductive stmt : Type :=
| Pass
| Assign (targets : list expr) (value : expr)
| AugAssign (target : expr) (op : operator) (value : expr)
| Expr (value : expr)
| Return (value : option expr)
| Delete (targets : list expr)
| Break
| Continue.

Inductive ast : Type :=
| AStmt (s : stmt)
| AExpr (e : expr).

(** ** Exceptions *)

Inductive exn : Type :=
| UnsupportedOperation (message : string) (node : ast)
| NetworkXError (message : string) (subject : list nat)
| KeyError
| IndexError
| AttributeError
| TypeError.

Definition result (A : Type) : Type := exn + A.

Definition ok {A} (x : A) : result A := inr x.
Definition raise {A} (e : exn) : result A := inl e.

Definition bindR {A B} (m : result A) (k : A → result B) : result B :=
  match m with
  | inl e => inl e
  | inr x => k x
  end.

(** Case analysis on every [decide] of the goal, then first-order reasoning. *)
Ltac decide_all :=
  repeat match goal with
         | |- context [decide ?P] => destruct (decide P)
         end;
  destruct_and?; simplify_eq; try done;
  try (exfalso; intuition (subst; eauto; congruence)).

(** Membership in a list built from [::] and [++], spelled out. *)
Ltac unfold_elem :=
  repeat (rewrite elem_of_app || rewrite elem_of_cons || rewrite elem_of_nil).

Notation "'do' x <- m ; k" := (bindR m (λ x, k))
  (at level 10, x pattern, m at level 100, k at level 200).

(** Modelled from the spec: [exceptions.assert_supported_operation] is not
    among the sources; validation "fails with UnsupportedOperation,
    parameterized by a human-readable message and the offending source
    position" when the condition does not hold. *)
Definition assert_supported_operation (condition : bool) (message : string)
    (node : ast) : result unit :=
  if condition then ok tt else raise (UnsupportedOperation message node).

(** ** The state graph: the part of [networkx.DiGraph] the code uses *)

(** A state object is a graph node; it is hashed by identity, so a node is
    its identity. *)
Definition node : Type := nat.

Record DiGraph (V : Type) : Type := mkDiGraph {
  nodes : list node;
  edges : list (node * node * gmap string V);
}.
Arguments mkDiGraph {V} _ _.
Arguments nodes {V} _.
Arguments edges {V} _.

Section Graph.
Context {V : Type}.
Implicit Types (g : DiGraph V) (u v n : node) (a d : gmap string V).
Implicit Types (es : list (node * node * gmap string V)).

Definition edge_is u v (e : node * node * gmap string V) : Prop :=
  e.1.1 = u ∧ e.1.2 = v.

Global Instance edge_is_dec u v e : Decision (edge_is u v e).
Proof. unfold edge_is; apply _. Defined.

(** [d.update(a)] *)
Definition dict_update d a : gmap string V := a ∪ d.

(** [G.edges[u, v]], [None] standing for the [KeyError]. *)
Fixpoint lookup_edge es u v : option (gmap string V) :=
  match es with
  | [] => None
  | e :: es' => if decide (edge_is u v e) then Some e.2 else lookup_edge es' u v
  end.

Definition get_edge g u v : option (gmap string V) := lookup_edge (edges g) u v.

Definition has_edge g u v : Prop := is_Some (get_edge g u v).

(** The edge part of [add_edge]: an existing attribute dict is updated in
    place, a new edge starts from the empty dict. *)
Fixpoint put_edge es u v a : list (node * node * gmap string V) :=
  match es with
  | [] => [(u, v, dict_update ∅ a)]
  | e :: es' =>
      if decide (edge_is u v e) then (u, v, dict_update e.2 a) :: es'
      else e :: put_edge es' u v a
  end.

Definition add_node (ns : list node) n : list node :=
  if decide (n ∈ ns) then ns else ns ++ [n].

(** [G.add_edge(u, v, **a)] *)
Definition add_edge g u v a : DiGraph V :=
  {| nodes := add_node (add_node (nodes g) u) v;
     edges := put_edge (edges g) u v a |}.

(** [G.remove_edge(u, v)] *)
Definition remove_edge g u v : result (DiGraph V) :=
  match get_edge g u v with
  | Some _ =>
      ok {| nodes := nodes g;
            edges := filter (λ e, ¬ edge_is u v e) (edges g) |}
  | None => raise (NetworkXError "The edge is not in the graph." [u; v])
  end.

(** [G.remove_node(n)]: the node goes with every edge at it. *)
Definition remove_node g n : result (DiGraph V) :=
  if decide (n ∈ nodes g) then
    ok {| nodes := filter (λ m, m ≠ n) (nodes g);
          edges := filter (λ e, e.1.1 ≠ n ∧ e.1.2 ≠ n) (edges g) |}
  else raise (NetworkXError "The node is not in the digraph." [n]).

(** [G.out_edges(n, data=True)] *)
Definition out_edges g n : list (node * node * gmap string V) :=
  filter (λ e, e.1.1 = n) (edges g).

(** Iterating [G[n]]: the successors of [n]. *)
Definition successors g n : list node := (λ e, e.1.2) <$> out_edges g n.

(** [G.in_edges(n)]: the pairs [(m, n)]. *)
Definition in_edges g n : list (node * node) :=
  (λ e, e.1) <$> filter (λ e, e.1.2 = n) (edges g).

(** The invariant networkx keeps: no duplicate node, one edge per ordered
    pair, and both ends of an edge are nodes. *)
Record wf g : Prop := {
  wf_nodes : NoDup (nodes g);
  wf_keys : NoDup ((λ e, e.1) <$> edges g);
  wf_ends : ∀ u v a, (u, v, a) ∈ edges g → u ∈ nodes g ∧ v ∈ nodes g;
}.
End Graph.

(** ** [PassState.shape] *)

Section Shape.
Context {V : Type}.
(** [self.ast_node] of every state object. *)
Variable ast_node : node → stmt.
Implicit Types (g : DiGraph V) (self : node).

Definition is_Pass (s : stmt) : bool :=
  match s with Pass => true | _ => false end.

(** Modelled from the spec: [State.edges] is a property of the base class,
    which is not among the sources; the spec counts the "outgoing edges" of
    a node.  They are read from the graph at the state, and a state that is
    not, or no longer, a node of the graph has no entry to read: the lookup
    raises [KeyError]. *)
Definition State_edges g self : result (list (node * node * gmap string V)) :=
  if decide (self ∈ nodes g) then ok (out_edges g self) else raise KeyError.

(** The inner loop: [for edge in list(self.state_graph.in_edges(self))]. *)
Fixpoint shape_in_edges g (next_state : node) (ins : list (node * node))
    (edges_to_remove : list (node * node))
    : result (DiGraph V * list (node * node)) :=
  match ins with
  | [] => ok (g, edges_to_remove)
  | edge :: ins' =>
      match get_edge g edge.1 edge.2 with
      | None => raise KeyError
      | Some attrs =>
          let edges_to_remove := edges_to_remove ++ [edge] in
          let from_state := edge.1 in
          let g := add_edge g from_state next_state attrs in
          shape_in_edges g next_state ins' edges_to_remove
      end
  end.

(** The outer loop: [for next_state in self.state_graph[self]].  The body
    only adds edges into [next_state], which is already a successor of
    [self], so the successors seen by the iteration are those at its
    start; the incoming edges are listed again for every [next_state]. *)
Fixpoint shape_next_states g self (nexts : list node)
    (edges_to_remove : list (node * node))
    : result (DiGraph V * list (node * node)) :=
  match nexts with
  | [] => ok (g, edges_to_remove)
  | next_state :: nexts' =>
      do (g, edges_to_remove) <-
        shape_in_edges g next_state (in_edges g self) edges_to_remove;
      shape_next_states g self nexts' edges_to_remove
  end.

(** [for edge in edges_to_remove: self.state_graph.remove_edge( *edge)] *)
Fixpoint remove_edges g (edges_to_remove : list (node * node))
    : result (DiGraph V) :=
  match edges_to_remove with
  | [] => ok g
  | edge :: rest => do g <- remove_edge g edge.1 edge.2; remove_edges g rest
  end.

(** The condition of the early return is an [or]: [self.edges] is read
    only when the origin is [pass]. *)
Definition shape g self : result (DiGraph V) :=
  do unchanged <-
    (if negb (is_Pass (ast_node self)) then ok true
     else do es <- State_edges g self; ok (length es =? 0)%nat);
  if (unchanged : bool) then ok g
  else
    do (g, edges_to_remove) <-
      shape_next_states g self (successors g self) [];
    do g <- remove_edges g edges_to_remove;
    remove_node g self.

(** Modelled from the spec: the driver of the shaping pass is not among
    the sources; the pass is "applied once per graph", one [shape] per
    node.  [shape_each] runs it over a given order, [shaping_pass] over the
    nodes of the graph as they are listed when the pass starts. *)
Fixpoint shape_each g (order : list node) : result (DiGraph V) :=
  match order with
  | [] => ok g
  | self :: rest => do g <- shape g self; shape_each g rest
  end.

Definition shaping_pass g : result (DiGraph V) := shape_each g (nodes g).

(** The spec's vocabulary (section 4.4): a node is elidable when its origin
    is the no-op marker and it has at least one outgoing edge; any other
    node is retained. *)
Definition elidable g self : Prop :=
  ast_node self = Pass ∧ out_edges g self ≠ [].

Definition retained g self : Prop := ¬ elidable g self.

(** A chain [p1 → p2 → ... → pk → B] of no-op nodes, each with the next
    node of the chain as its one successor. *)
Fixpoint pass_chain g (ps : list node) (B : node) : Prop :=
  match ps with
  | [] => True
  | p :: ps' =>
      ast_node p = Pass ∧ (∀ v, has_edge g p v ↔ v = hd B ps') ∧
      pass_chain g ps' B
  end.

End Shape.

(** The invariant and the spec's notion of an elidable node can be computed
    on a concrete graph. *)
Definition wfb {V} (g : DiGraph V) : bool :=
  bool_decide (NoDup (nodes g)) &&
  bool_decide (NoDup ((λ e, e.1) <$> edges g)) &&
  forallb (λ e, bool_decide (e.1.1 ∈ nodes g) && bool_decide (e.1.2 ∈ nodes g))
          (edges g).

Definition elidableb {V} (ast_node : node → stmt) (g : DiGraph V) (self : node)
    : bool :=
  is_Pass (ast_node self) && negb (length (out_edges g self) =? 0)%nat.

(** ** [PassState]: serialization *)

Section PassState.
Context {V : Type}.
(** [self.ast_node] of every state object. *)
Variable ast_node : node → stmt.

(** Library calls.  [literal_eval e] is
    [ast.literal_eval(astor.to_source(e).strip())]: printing a node and
    parsing the text again gives the node back, so the evaluation is taken
    on the node; [None] stands for any exception.  [json_serializable v]
    says that [json.dumps(v)] returns; the code drops its output. *)
Variable literal_eval : expr → option pyvalue.
Variable json_serializable : pyvalue → bool.

(** Parts of the package that are not among the sources:
    [util.convert_input_data_ref]; [constants.INVALID_RESULT_PATH_PATTERN],
    taken as the predicate "[re.search] finds the pattern in the string";
    [constants.RESERVED_INPUT_DATA_KEYS]; and [State._set_end_or_next],
    as the mapping it leaves in [data], or the exception it raises. *)
Variable convert_input_data_ref : expr → result string.
Variable INVALID_RESULT_PATH_PATTERN : string → bool.
Variable RESERVED_INPUT_DATA_KEYS : list string.
Variable _set_end_or_next :
  DiGraph V → node → gmap string pyvalue → result (gmap string pyvalue).

Implicit Types (g : DiGraph V) (self : node).

(** [hasattr(node, "value")], with the attribute. *)
Definition stmt_value (s : stmt) : option (option expr) :=
  match s with
  | Assign _ v | AugAssign _ _ v | Expr v => Some (Some v)
  | Return v => Some v
  | Pass | Delete _ | Break | Continue => None
  end.

(** [value.args[0]]: the first argument of a call; the [ast.arguments]
    object of a lambda cannot be indexed; no other node has [args], and
    neither has [None]. *)
Definition first_arg (value : option expr) : result expr :=
  match value with
  | Some (Call _ (arg :: _) _) => ok arg
  | Some (Call _ [] _) => raise IndexError
  | Some (Lambda _ _) => raise TypeError
  | _ => raise AttributeError
  end.

Definition not_json_message : string :=
  "Only JSON-serializeable values can be used to update the data object".

Definition _parse_result self : result pyvalue :=
  do source <-
    match ast_node self with
    | Assign _ value => ok value
    | other =>
        match stmt_value other with
        | Some value => first_arg value
        | None => ok (Dict [] [])
        end
    end;
  (* try: result = ast.literal_eval(source); json.dumps(result) *)
  match
    result ← literal_eval source;
    if json_serializable result then Some result else None
  with
  | Some result => ok result
  | None => raise (UnsupportedOperation not_json_message (AStmt (ast_node self)))
  end.

Definition reserved_keys_message : string :=
  "Task result path is invalid. Check that it does not contain reserved"
  +:+ " keys: " +:+ String.concat ", " RESERVED_INPUT_DATA_KEYS.

Definition _parse_result_path self : result string :=
  match ast_node self with
  | Assign targets _ =>
      do target <- match targets with t :: _ => ok t | [] => raise IndexError end;
      do result_path <- convert_input_data_ref target;
      do _ <- assert_supported_operation
                (negb (INVALID_RESULT_PATH_PATTERN result_path))
                reserved_keys_message (AStmt (ast_node self));
      ok result_path
  | _ => ok "$"
  end.

Definition to_dict g self : result (gmap string pyvalue) :=
  let data : gmap string pyvalue := {[ "Type" := PStr "Pass" ]} in
  do data <-
    (if negb (is_Pass (ast_node self)) then
       do r <- _parse_result self;
       let data := <[ "Result" := r ]> data in
       do p <- _parse_result_path self;
       ok (<[ "ResultPath" := PStr p ]> data)
     else ok data);
  _set_end_or_next g self data.
End PassState.

(** ** Instances of the library calls and of the missing parts

    They make the definitions above run on concrete inputs. *)

(** [hash(v)] is defined. *)
Fixpoint hashable (v : pyvalue) : bool :=
  match v with
  | PNone | PBool _ | PInt _ | PStr _ | PBytes _ => true
  | PTuple items => forallb hashable items
  | PList _ | PSet _ | PDict _ => false
  end.

Definition as_int (v : pyvalue) : option Z :=
  match v with
  | PBool b => Some (if b then 1 else 0)%Z
  | PInt z => Some z
  | _ => None
  end.

(** [a == b] on hashable values: [True == 1], and a tuple equals a tuple
    with equal items. *)
Fixpoint py_eqb (a b : pyvalue) {struct a} : bool :=
  match a, b with
  | PNone, PNone => true
  | PStr s, PStr t => String.eqb s t
  | PBytes s, PBytes t => String.eqb s t
  | PTuple xs, PTuple ys =>
      (fix go (xs ys : list pyvalue) {struct xs} : bool :=
         match xs, ys with
         | [], [] => true
         | x :: xs', y :: ys' => py_eqb x y && go xs' ys'
         | _, _ => false
         end) xs ys
  | _, _ =>
      match as_int a, as_int b with
      | Some m, Some n => (m =? n)%Z
      | _, _ => false
      end
  end.

(** [d[k] = v] on the items of a dict. *)
Fixpoint dict_setitem (d : list (pyvalue * pyvalue)) (k v : pyvalue)
    : list (pyvalue * pyvalue) :=
  match d with
  | [] => [(k, v)]
  | (k', v') :: d' =>
      if py_eqb k' k then (k', v) :: d' else (k', v') :: dict_setitem d' k v
  end.

(** [dict(pairs)], a [TypeError] ([None]) on an unhashable key. *)
Definition py_dict (pairs : list (pyvalue * pyvalue)) : option pyvalue :=
  if forallb (λ kv, hashable kv.1) pairs
  then Some (PDict (foldl (λ d kv, dict_setitem d kv.1 kv.2) [] pairs))
  else None.

(** [set(items)], a [TypeError] ([None]) on an unhashable item. *)
Definition py_set (items : list pyvalue) : option pyvalue :=
  if forallb hashable items
  then Some (PSet (foldl (λ acc x, if existsb (py_eqb x) acc then acc else acc ++ [x])
                         [] items))
  else None.

(** [_convert_signed_num] of [ast.literal_eval] *)
Definition convert_signed_num (e : expr) : option pyvalue :=
  match e with
  | Num n => Some (PInt n)
  | UnaryOp UAdd (Num n) => Some (PInt n)
  | UnaryOp USub (Num n) => Some (PInt (- n))
  | _ => None
  end.

(** [ast.literal_eval] on the nodes of this file.  A [BinOp] is accepted by
    Python only with a complex right operand, which [expr] does not have. *)
Fixpoint py_literal_eval (e : expr) : option pyvalue :=
  match e with
  | Str s => Some (PStr s)
  | Bytes s => Some (PBytes s)
  | Num n => Some (PInt n)
  | Tuple elts => PTuple <$> mapM py_literal_eval elts
  | List elts => PList <$> mapM py_literal_eval elts
  | Set_ elts => items ← mapM py_literal_eval elts; py_set items
  | Dict keys values =>
      ks ← mapM (λ k, k' ← k; py_literal_eval k') keys;
      vs ← mapM py_literal_eval values;
      py_dict (zip ks vs)
  | NameConstant (Some b) => Some (PBool b)
  | NameConstant None => Some PNone
  | _ => convert_signed_num e
  end.

(** [json.dumps(v)] returns: no bytes, no set, and the keys of a dict are
    strings, numbers, booleans or [None]. *)
Fixpoint py_json_serializable (v : pyvalue) : bool :=
  match v with
  | PNone | PBool _ | PInt _ | PStr _ => true
  | PBytes _ | PSet _ => false
  | PList items | PTuple items => forallb py_json_serializable items
  | PDict items =>
      forallb (λ kv,
        match kv.1 with
        | PNone | PBool _ | PInt _ | PStr _ => py_json_serializable kv.2
        | _ => false
        end) items
  end.

(** Modelled from the spec: [util.convert_input_data_ref] is not among the
    sources.  The class docstring maps the target [data["foo"]] to the path
    [$['foo']]; subscripts of the [data] name with string keys are taken
    that way, any other target is unsupported. *)
Fixpoint doc_convert_input_data_ref (target : expr) : result string :=
  match target with
  | Name "data" => ok "$"
  | Subscript value (Str key) =>
      do base <- doc_convert_input_data_ref value;
      ok (base +:+ "['" +:+ key +:+ "']")
  | _ => raise (UnsupportedOperation "Unsupported input data reference" (AExpr target))
  end.

Definition lower_ascii (c : ascii) : ascii :=
  let n := nat_of_ascii c in
  if (65 <=? n)%nat && (n <=? 90)%nat then ascii_of_nat (n + 32) else c.

Fixpoint lower (s : string) : string :=
  match s with
  | EmptyString => EmptyString
  | String c s' => String (lower_ascii c) (lower s')
  end.

(** Modelled from the spec: [constants.INVALID_RESULT_PATH_PATTERN] is not
    among the sources; the spec describes a "case-insensitive match against a
    fixed denylist" of keys, searched in the result path. *)
Definition denylist_pattern (keys : list string) (path : string) : bool :=
  existsb (λ key,
    match String.index 0 (lower key) (lower path) with
    | Some _ => true
    | None => false
    end) keys.

(** Modelled from the spec: [State._set_end_or_next] is not among the
    sources.  "If a node has exactly one outgoing edge with empty attrs, set
    Next to that successor's derived name; if zero outgoing edges, set End:
    true."  The spec says nothing of a Pass state with other edges; the
    mapping is left as it is there.  The edges are those of the state
    ([State_edges]), so the linkage of a state that is not a node of the
    graph raises. *)
Definition spec_set_end_or_next {V} (key : node → string) (g : DiGraph V)
    (self : node) (data : gmap string pyvalue) : result (gmap string pyvalue) :=
  do es <- State_edges g self;
  match es with
  | [] => ok (<[ "End" := PBool true ]> data)
  | [e] =>
      if bool_decide (dom e.2 = ∅) then ok (<[ "Next" := PStr (key e.1.2) ]> data)
      else ok data
  | _ => ok data
  end.

(** ** Resource decorators *)

(** The node classes a decorator option can ask for. *)
Inductive ast_class : Type :=
| ast_Num | ast_Str | ast_Bytes | ast_NameConstant | ast_Ellipsis | ast_Name
| ast_List | ast_Tuple | ast_Set | ast_Dict | ast_UnaryOp | ast_BinOp
| ast_Call | ast_Lambda | ast_Attribute | ast_Subscript.

Global Instance ast_class_eq_dec : EqDecision ast_class.
Proof. solve_decision. Defined.

(** [type(node)] *)
Definition class_of (e : expr) : ast_class :=
  match e with
  | Num _ => ast_Num | Str _ => ast_Str | Bytes _ => ast_Bytes
  | NameConstant _ => ast_NameConstant | Ellipsis => ast_Ellipsis
  | Name _ => ast_Name | List _ => ast_List | Tuple _ => ast_Tuple
  | Set_ _ => ast_Set | Dict _ _ => ast_Dict | UnaryOp _ _ => ast_UnaryOp
  | BinOp _ _ _ => ast_BinOp | Call _ _ _ => ast_Call
  | Lambda _ _ => ast_Lambda
  | Attribute _ _ => ast_Attribute | Subscript _ _ => ast_Subscript
  end.

(** The keys of [GET_VALUE_MAP] and the values its accessors return. *)
Inductive pytype : Type := type_str | type_bool | type_dict.

Definition host (t : pytype) : Type :=
  match t with
  | type_str => string
  | type_bool => bool
  | type_dict => list (pyvalue * pyvalue)
  end.

Definition to_pyvalue (t : pytype) : host t → pyvalue :=
  match t with
  | type_str => PStr
  | type_bool => PBool
  | type_dict => PDict
  end.

(** A keyword of [CallableOption(...)]: given, or left to the default of the
    constructor, which is not among the sources. *)
Inductive default_arg : Type :=
| Omitted
| Default (v : pyvalue).

Record CallableOption : Type := {
  value_type : ast_class;
  value_type_label : string;
  get_value : expr → result pyvalue;
  default_value : default_arg;
}.

Record DecoratorConfig : Type := {
  max_count : option nat;   (* [None]: the key is absent, no limit *)
  options : list (string * CallableOption);
}.

(** One application [@name(keyword=value, ...)] on a function. *)
Record decorator_call : Type := {
  decorator_name : string;
  keywords : list (string * expr);
  call_node : expr;
}.

Record DecoratorEffect : Type := {
  effect_name : string;
  values : gmap string pyvalue;
  origin : expr;
}.

Fixpoint assoc {A} (k : string) (l : list (string * A)) : option A :=
  match l with
  | [] => None
  | (k', x) :: l' => if decide (k' = k) then Some x else assoc k l'
  end.

Section Decorators.
(** [util.GET_VALUE_MAP] is not among the sources. *)
Variable GET_VALUE_MAP : ∀ t : pytype, expr → result (host t).

Definition get_subscribe_status (node : expr) : result string :=
  do value <- GET_VALUE_MAP type_str node;
  do _ <- assert_supported_operation
            (bool_decide (value ∈ ["success"; "failure"]))
            ("Status must be one of success|failure. Provided: " +:+ value)
            (AExpr node);
  ok value.

(** An accessor, as a function to Python values. *)
Definition accessor (t : pytype) (node : expr) : result pyvalue :=
  do v <- GET_VALUE_MAP t node; ok (to_pyvalue t v).

Definition RESOURCE_DECORATOR_MAP : list (string * DecoratorConfig) :=
  [ ("export",
     {| max_count := Some 1;
        options :=
          [ ("enabled",
             {| value_type := ast_Name;
                value_type_label := "boolean";
                get_value := accessor type_bool;
                default_value := Default (PBool true) |}) ] |});
    ("schedule",
     {| max_count := Some 1;
        options :=
          [ ("expression",
             {| value_type := ast_Str;
                value_type_label := "string";
                get_value := accessor type_str;
                default_value := Default PNone |});
            ("input_data",
             {| value_type := ast_Dict;
                value_type_label := "dict";
                get_value := accessor type_dict;
                default_value := Default PNone |}) ] |});
    ("subscribe",
     {| max_count := None;
        options :=
          [ ("topic_arn_import_value",
             {| value_type := ast_Str;
                value_type_label := "string";
                get_value := accessor type_str;
                default_value := Omitted |});
            ("project",
             {| value_type := ast_Str;
                value_type_label := "string";
                get_value := accessor type_str;
                default_value := Omitted |});
            ("state_machine",
             {| value_type := ast_Str;
                value_type_label := "string";
                get_value := accessor type_str;
                default_value := Default (PStr "main") |});
            ("status",
             {| value_type := ast_Str;
                value_type_label := "string";
                get_value := λ node, do v <- get_subscribe_status node; ok (PStr v);
                default_value := Default (PStr "success") |}) ] |}) ].

(** Modelled from the spec: the decorator validator is not among the
    sources.  Section 4.2: look the decorator up by name (unknown names
    fail); fail if the applications of this name already seen "equal/exceed"
    [max_count]; look every keyword up by name (unknown names fail), check
    the kind of its node, then run its extractor; "any option not supplied
    takes its schema default"; produce the effect with the resolved values.
    An option with neither a value nor a default is left out of the
    values.  The spec gives no wording for the messages. *)
Definition default_values (opts : list (string * CallableOption))
    : gmap string pyvalue :=
  foldr (λ o m,
           match default_value o.2 with
           | Default v => <[ o.1 := v ]> m
           | Omitted => m
           end) ∅ opts.

(** Modelled from the spec: steps 3 and 4 of the validator, for the keywords
    of one application, on top of the defaults. *)
Fixpoint validate_keywords (opts : list (string * CallableOption))
    (kws : list (string * expr)) (vals : gmap string pyvalue)
    : result (gmap string pyvalue) :=
  match kws with
  | [] => ok vals
  | (name, node) :: kws' =>
      match assoc name opts with
      | None => raise (UnsupportedOperation "Unknown option" (AExpr node))
      | Some opt =>
          do _ <- assert_supported_operation
                    (bool_decide (class_of node = value_type opt))
                    ("Option value must be a " +:+ value_type_label opt)
                    (AExpr node);
          do v <- get_value opt node;
          validate_keywords opts kws' (<[ name := v ]> vals)
      end
  end.

(** Modelled from the spec: steps 1, 2 and 6 of the validator, over the
    applications found on one function; [seen] are the names of the
    applications already accepted. *)
Fixpoint validate_decorators (seen : list string) (decs : list decorator_call)
    : result (list DecoratorEffect) :=
  match decs with
  | [] => ok []
  | d :: decs' =>
      match assoc (decorator_name d) RESOURCE_DECORATOR_MAP with
      | None => raise (UnsupportedOperation "Unknown decorator" (AExpr (call_node d)))
      | Some schema =>
          let applied := length (filter (λ n, n = decorator_name d) seen) in
          do _ <- assert_supported_operation
                    (match max_count schema with
                     | Some m => (applied <? m)%nat
                     | None => true
                     end)
                    "Decorator applied too many times" (AExpr (call_node d));
          do vals <- validate_keywords (options schema) (keywords d)
                       (default_values (options schema));
          do effects <- validate_decorators (decorator_name d :: seen) decs';
          ok ({| effect_name := decorator_name d;
                 values := vals;
                 origin := call_node d |} :: effects)
      end
  end.
End Decorators.

(** [@export()] on a function, [call] being the node of the call. *)
Definition export_call (call : expr) : decorator_call :=
  {| decorator_name := "export"; keywords := []; call_node := call |}.

(** Modelled from the spec: [util.GET_VALUE_MAP] is not among the sources.
    "String/bool/dict extractors require the node to be a literal of exactly
    that syntactic kind; any other node kind fails with
    UnsupportedOperation"; the wording of the message is not given. *)
Definition spec_GET_VALUE_MAP (t : pytype) (node : expr) : result (host t) :=
  let unsupported := UnsupportedOperation "Unsupported value" (AExpr node) in
  match t return result (host t) with
  | type_str => match node with Str s => ok s | _ => raise unsupported end
  | type_bool =>
      match node with NameConstant (Some b) => ok b | _ => raise unsupported end
  | type_dict =>
      match node with
      | Dict _ _ =>
          match py_literal_eval node with
          | Some (PDict items) => ok items
          | _ => raise unsupported
          end
      | _ => raise unsupported
      end
  end.

(** ** Sample inputs *)

(** [data["key"]] *)
Definition data_ref (key : string) : expr := Subscript (Name "data") (Str key).

(** The origins of the states used below:
    0: [data["x"] = 1]; 1, 2 and 4: [pass]; 3: [data["y"] = {"a": 2}];
    5: [data.update({"a": 2})]; 6: [data["Result"] = 1];
    7: [data["x"] = {1}]; 8: [del x]; 9: [data["foo"]["bar"] = 1]. *)
Definition sample_origin (n : node) : stmt :=
  match n with
  | 0 => Assign [data_ref "x"] (Num 1)
  | 1 | 2 | 4 => Pass
  | 3 => Assign [data_ref "y"] (Dict [Some (Str "a")] [Num 2])
  | 5 => Expr (Call (Attribute (Name "data") "update")
                 [Dict [Some (Str "a")] [Num 2]] [])
  | 6 => Assign [data_ref "Result"] (Num 1)
  | 7 => Assign [data_ref "x"] (Set_ [Num 1])
  | 8 => Delete [Name "x"]
  | 9 => Assign [Subscript (data_ref "foo") (Str "bar")] (Num 1)
  | _ => Break
  end.

Definition sample_key (n : node) : string :=
  match n with
  | 0 => "set-x"
  | 3 => "set-y"
  | _ => "state"
  end.

(** Modelled from the spec: [constants.RESERVED_INPUT_DATA_KEYS] is not among
    the sources; the spec names [Result] and [ResultPath] as examples of
    reserved keys. *)
Definition sample_reserved_keys : list string := ["Result"; "ResultPath"].

Definition branch_attrs : gmap string pyvalue := {[ "Condition" := PStr "c" ]}.

(** [0 → 1 → 2 → 3], the first edge with attributes; 4 is a no-op on its
    own, as a catch handler is. *)
Definition chain_graph : DiGraph pyvalue :=
  mkDiGraph [0; 1; 2; 3; 4] [(0, 1, branch_attrs); (1, 2, ∅); (2, 3, ∅)].

Definition shaped_chain_graph : DiGraph pyvalue :=
  mkDiGraph [0; 3; 4] [(0, 3, branch_attrs)].

(** A no-op node with one predecessor and two successors. *)
Definition fan_graph : DiGraph pyvalue :=
  mkDiGraph [0; 1; 3; 5] [(0, 1, ∅); (1, 3, ∅); (1, 5, ∅)].

Definition sample_to_dict (g : DiGraph pyvalue) (self : node)
    : result (gmap string pyvalue) :=
  to_dict sample_origin py_literal_eval py_json_serializable
    doc_convert_input_data_ref (denylist_pattern sample_reserved_keys)
    sample_reserved_keys (spec_set_end_or_next sample_key) g self.

(** A no-op node that starts the graph, with two successors: 1 → 0, 1 → 3. *)
Definition start_graph : DiGraph pyvalue :=
  mkDiGraph [1; 0; 3] [(1, 0, ∅); (1, 3, ∅)].

(** A no-op node beside an edge that is already there: 0 → 1 → 3 and 0 → 3. *)
Definition merge_graph : DiGraph pyvalue :=
  mkDiGraph [0; 1; 3]
    [(0, 1, branch_attrs); (1, 3, ∅);
     (0, 3, {[ "Condition" := PStr "old"; "Default" := PBool true ]})].

(** Origins that take [_parse_result] outside its [try]:
    0: [data.update()]; 1: [data["x"] += 1]; 2: [return]; 3: [data];
    5: [lambda: 0]; 6: [data["x"] += y]; and 4: [data["Result"] = undefined]. *)
Definition odd_origin (n : node) : stmt :=
  match n with
  | 0 => Expr (Call (Attribute (Name "data") "update") [] [])
  | 1 => AugAssign (data_ref "x") Add (Num 1)
  | 2 => Return None
  | 3 => Expr (Name "data")
  | 4 => Assign [data_ref "Result"] (Name "undefined")
  | 5 => Expr (Lambda [] (Num 0))
  | 6 => AugAssign (data_ref "x") Add (Name "y")
  | _ => Pass
  end.

(** The states 0 to 6, one after the other. *)
Definition odd_graph : DiGraph pyvalue :=
  mkDiGraph [0; 1; 2; 3; 4; 5; 6]
    [(0, 1, ∅); (1, 2, ∅); (2, 3, ∅); (3, 4, ∅); (4, 5, ∅); (5, 6, ∅)].

(** [data.update({"a": 2})] followed by [del x]: the states 5 and 8. *)
Definition update_graph : DiGraph pyvalue :=
  mkDiGraph [5; 8] [(5, 8, ∅)].

Definition odd_to_dict (g : DiGraph pyvalue) (self : node)
    : result (gmap string pyvalue) :=
  to_dict odd_origin py_literal_eval py_json_serializable
    doc_convert_input_data_ref (denylist_pattern sample_reserved_keys)
    sample_reserved_keys (spec_set_end_or_next sample_key) g self.

(** [chain_graph] after [shape] on its node 1, and on its node 2. *)
Definition chain_graph_without_1 : DiGraph pyvalue :=
  mkDiGraph [0; 2; 3; 4] [(2, 3, ∅); (0, 2, branch_attrs)].

Definition chain_graph_without_2 : DiGraph pyvalue :=
  mkDiGraph [0; 1; 3; 4] [(0, 1, branch_attrs); (1, 3, ∅)].

(** [merge_graph] after [shape] on its node 1. *)
Definition merged_graph : DiGraph pyvalue :=
  mkDiGraph [0; 3]
    [(0, 3, {[ "Condition" := PStr "c"; "Default" := PBool true ]})].

(* ================================================================== *)
(** * Properties *)

(** ** Facts about the graph operations *)

Section GraphFacts.
Context {V : Type}.
Implicit Types (g : DiGraph V) (u v n x y : node) (a d : gmap string V).
Implicit Types (es : list (node * node * gmap string V)).


Lemma lookup_edge_elem es u v a : lookup_edge es u v = Some a → (u, v, a) ∈ es.
Proof.
  induction es as [|[[u' v'] a'] es IH]; csimpl; [done|].
  case_decide as Hk; unfold edge_is in Hk; csimpl in Hk.
  - destruct Hk as [-> ->]. intros [= ->]. apply elem_of_cons; by left.
  - intros H. apply elem_of_cons; right; auto.
Qed.

Lemma lookup_edge_None es u v :
  lookup_edge es u v = None ↔ (u, v) ∉ (λ e, e.1) <$> es.
Proof.
  induction es as [|[[u' v'] a'] es IH]; csimpl.
  - split; [intros _; apply not_elem_of_nil | done].
  - rewrite not_elem_of_cons. case_decide as Hk; unfold edge_is in Hk; csimpl in Hk.
    + destruct Hk as [-> ->]. split; [done | intros [? _]; done].
    + rewrite IH. split; [intros ?; split; [|done] | intros [_ ?]; done].
      intros [= -> ->]. apply Hk. by split.
Qed.

Lemma lookup_edge_is_Some es u v :
  is_Some (lookup_edge es u v) ↔ (u, v) ∈ (λ e, e.1) <$> es.
Proof.
  rewrite <- not_eq_None_Some, lookup_edge_None.
  split; [apply dec_stable | auto].
Qed.


Lemma lookup_put_edge es u v a x y :
  lookup_edge (put_edge es u v a) x y =
    if decide (x = u ∧ y = v)
    then Some (dict_update (default ∅ (lookup_edge es u v)) a)
    else lookup_edge es x y.
Proof.
  induction es as [|[[u' v'] a'] es IH]; csimpl.
  - unfold edge_is; csimpl. decide_all.
  - unfold edge_is in *; csimpl in *.
    destruct (decide (u' = u ∧ v' = v)) as [[-> ->]|Hk]; csimpl.
    + unfold edge_is; csimpl. decide_all.
    + unfold edge_is; csimpl. rewrite IH. decide_all.
Qed.

Lemma keys_put_edge es u v a :
  (λ e, e.1) <$> put_edge es u v a =
    if decide ((u, v) ∈ (λ e, e.1) <$> es) then (λ e, e.1) <$> es
    else ((λ e, e.1) <$> es) ++ [(u, v)].
Proof.
  induction es as [|[[u' v'] a'] es IH]; csimpl.
  - done.
  - unfold edge_is; csimpl.
    destruct (decide (u' = u ∧ v' = v)) as [[-> ->]|Hk]; csimpl.
    + rewrite decide_True; [done | apply elem_of_cons; by left].
    + rewrite IH. case_decide as H1; case_decide as H2; try done.
      * exfalso. apply H2. apply elem_of_cons; by right.
      * exfalso. apply elem_of_cons in H2 as [[= -> ->]|?]; [by apply Hk | done].
Qed.

Lemma NoDup_keys_put_edge es u v a :
  NoDup ((λ e, e.1) <$> es) → NoDup ((λ e, e.1) <$> put_edge es u v a).
Proof.
  intros Hnd. rewrite keys_put_edge. case_decide as H; [done|].
  apply NoDup_app. split_and!; [done | | apply NoDup_singleton].
  intros k Hk ->%list_elem_of_singleton. done.
Qed.

Lemma elem_lookup_edge_any es u v a :
  (u, v, a) ∈ es → is_Some (lookup_edge es u v).
Proof.
  intros Hin. apply lookup_edge_is_Some, list_elem_of_fmap. by exists (u, v, a).
Qed.

Lemma elem_put_edge es u v a x y b :
  (x, y, b) ∈ put_edge es u v a → (x = u ∧ y = v) ∨ (x, y, b) ∈ es.
Proof.
  induction es as [|[[u' v'] a'] es IH]; csimpl.
  - intros [= -> -> ->]%list_elem_of_singleton. by left.
  - unfold edge_is; csimpl. case_decide as Hk.
    + rewrite !elem_of_cons. intros [[= -> -> ->]|?]; [by left | right; by right].
    + rewrite !elem_of_cons. intros [?|?]; [right; by left|].
      destruct IH as [?|?]; [done | by left | right; by right].
Qed.

(** Filtering on the key of an edge. *)
Lemma lookup_edge_filter (Q : node * node * gmap string V → Prop)
    `{!∀ e, Decision (Q e)} (P : node * node → Prop) `{!∀ k, Decision (P k)}
    es u v :
  (∀ e, Q e ↔ P e.1) →
  lookup_edge (filter Q es) u v =
    if decide (P (u, v)) then lookup_edge es u v else None.
Proof.
  intros HQ. induction es as [|[[u' v'] a'] es IH]; csimpl.
  - by case_decide.
  - rewrite filter_cons.
    destruct (decide (Q (u', v', a'))) as [Hq|Hq]; rewrite HQ in Hq; csimpl in *.
    + unfold edge_is; csimpl. rewrite IH. decide_all.
    + rewrite IH. unfold edge_is; csimpl. decide_all.
Qed.

Lemma NoDup_keys_filter (P : node * node * gmap string V → Prop)
    `{!∀ e, Decision (P e)} es :
  NoDup ((λ e, e.1) <$> es) → NoDup ((λ e, e.1) <$> filter P es).
Proof.
  induction es as [|e es IH]; csimpl; [done|].
  rewrite NoDup_cons. intros [Hnin Hnd]. rewrite filter_cons.
  case_decide; csimpl; [|auto].
  apply NoDup_cons. split; [|auto].
  intros (e' & He & Hin)%list_elem_of_fmap. apply Hnin.
  apply list_elem_of_filter in Hin as [_ Hin].
  apply list_elem_of_fmap. by exists e'.
Qed.

Lemma get_edge_elem g u v a : get_edge g u v = Some a → (u, v, a) ∈ edges g.
Proof. apply lookup_edge_elem. Qed.


Lemma has_edge_keys g u v : has_edge g u v ↔ (u, v) ∈ (λ e, e.1) <$> edges g.
Proof. apply lookup_edge_is_Some. Qed.

Lemma has_edge_nodes g u v : wf g → has_edge g u v → u ∈ nodes g ∧ v ∈ nodes g.
Proof.
  intros Hwf [a Ha]. apply get_edge_elem in Ha. by apply (wf_ends g Hwf u v a).
Qed.


(** *** [add_edge] *)

Lemma get_edge_add_edge g u v a x y :
  get_edge (add_edge g u v a) x y =
    if decide (x = u ∧ y = v)
    then Some (dict_update (default ∅ (get_edge g u v)) a)
    else get_edge g x y.
Proof. apply lookup_put_edge. Qed.

Lemma has_edge_add_edge g u v a x y :
  has_edge (add_edge g u v a) x y ↔ (x = u ∧ y = v) ∨ has_edge g x y.
Proof.
  unfold has_edge. rewrite get_edge_add_edge. case_decide as H.
  - split; [by left | by eauto].
  - split; [by right | by intros [?|?]].
Qed.

Lemma add_node_elem ns n : n ∈ ns → add_node ns n = ns.
Proof. intros H. unfold add_node. by rewrite decide_True. Qed.

Lemma nodes_add_edge g u v a :
  u ∈ nodes g → v ∈ nodes g → nodes (add_edge g u v a) = nodes g.
Proof. intros Hu Hv. csimpl. by rewrite (add_node_elem _ u), add_node_elem. Qed.

Lemma wf_add_edge g u v a :
  wf g → u ∈ nodes g → v ∈ nodes g → wf (add_edge g u v a).
Proof.
  intros Hwf Hu Hv. split.
  - rewrite nodes_add_edge by done. apply Hwf.
  - apply NoDup_keys_put_edge, Hwf.
  - intros x y b Hin. rewrite nodes_add_edge by done.
    apply elem_put_edge in Hin as [[-> ->]|Hin]; [done|].
    by apply (wf_ends g Hwf x y b).
Qed.

(** *** [remove_edge] *)

Lemma remove_edge_ok g u v :
  has_edge g u v →
  ∃ g', remove_edge g u v = ok g' ∧ nodes g' = nodes g ∧
    (∀ x y, get_edge g' x y =
              if decide (x = u ∧ y = v) then None else get_edge g x y) ∧
    (wf g → wf g').
Proof.
  intros [a Ha]. unfold remove_edge. rewrite Ha.
  eexists; split; [done|]. split; [done|]. split.
  - intros x y. unfold get_edge; csimpl.
    rewrite (lookup_edge_filter _ (λ k, ¬ (k.1 = u ∧ k.2 = v))) by done.
    csimpl. decide_all.
  - intros Hwf. split; csimpl.
    + apply Hwf.
    + apply NoDup_keys_filter, Hwf.
    + intros x y b [_ Hin]%list_elem_of_filter. by apply (wf_ends g Hwf x y b).
Qed.

Lemma remove_edge_absent g u v :
  get_edge g u v = None →
  remove_edge g u v = raise (NetworkXError "The edge is not in the graph." [u; v]).
Proof. intros H. unfold remove_edge. by rewrite H. Qed.

Lemma remove_edge_inv g u v g' : remove_edge g u v = ok g' → has_edge g u v.
Proof.
  unfold remove_edge, has_edge. destruct (get_edge g u v); [eauto | done].
Qed.

(** *** [remove_node] *)

Lemma remove_node_ok g n :
  n ∈ nodes g →
  ∃ g', remove_node g n = ok g' ∧ nodes g' = filter (λ m, m ≠ n) (nodes g) ∧
    (∀ x y, get_edge g' x y =
              if decide (x ≠ n ∧ y ≠ n) then get_edge g x y else None) ∧
    (wf g → wf g').
Proof.
  intros Hn. unfold remove_node. rewrite decide_True by done.
  eexists; split; [done|]. split; [done|]. split.
  - intros x y. unfold get_edge; csimpl.
    by rewrite (lookup_edge_filter _ (λ k, k.1 ≠ n ∧ k.2 ≠ n)).
  - intros Hwf. split; csimpl.
    + apply NoDup_filter, Hwf.
    + apply NoDup_keys_filter, Hwf.
    + intros x y b [[Hx Hy] Hin]%list_elem_of_filter. csimpl in *.
      destruct (wf_ends g Hwf x y b Hin).
      split; apply list_elem_of_filter; done.
Qed.

Lemma remove_node_inv g n g' : remove_node g n = ok g' → n ∈ nodes g.
Proof. unfold remove_node. by case_decide. Qed.

(** *** Listing edges *)

Lemma elem_in_edges g n m n' :
  (m, n') ∈ in_edges g n ↔ n' = n ∧ has_edge g m n.
Proof.
  unfold in_edges. rewrite has_edge_keys, !list_elem_of_fmap. split.
  - intros ([[x y] b] & Heq & [Hy Hin]%list_elem_of_filter).
    csimpl in *. simplify_eq. split; [done|].
    eexists. split; [|exact Hin]. done.
  - intros [-> ([[x y] b] & Heq & Hin)]. csimpl in *. simplify_eq.
    eexists. split; [|apply list_elem_of_filter; split; [|exact Hin]]; done.
Qed.

Lemma elem_successors g n v : v ∈ successors g n ↔ has_edge g n v.
Proof.
  unfold successors, out_edges. rewrite has_edge_keys, !list_elem_of_fmap. split.
  - intros ([[x y] b] & Heq & [Hx Hin]%list_elem_of_filter).
    csimpl in *. simplify_eq. eexists. split; [|exact Hin]. done.
  - intros ([[x y] b] & Heq & Hin). csimpl in *. simplify_eq.
    eexists. split; [|apply list_elem_of_filter; split; [|exact Hin]]; done.
Qed.

Lemma NoDup_in_edges g n : wf g → NoDup (in_edges g n).
Proof. intros Hwf. apply NoDup_keys_filter, Hwf. Qed.

Lemma NoDup_successors g n : wf g → NoDup (successors g n).
Proof.
  intros Hwf. unfold successors, out_edges.
  change (λ e : node * node * gmap string V, e.1.2)
    with (snd ∘ (λ e : node * node * gmap string V, e.1)).
  rewrite list_fmap_compose. apply NoDup_fmap_2_strong.
  - intros k1 k2
      ([[x1 y1] b1] & -> & [H1 _]%list_elem_of_filter)%list_elem_of_fmap
      ([[x2 y2] b2] & -> & [H2 _]%list_elem_of_filter)%list_elem_of_fmap.
    csimpl in *. intros; by simplify_eq.
  - apply NoDup_keys_filter, Hwf.
Qed.

Lemma out_edges_nil g n : out_edges g n = [] ↔ ∀ v, ¬ has_edge g n v.
Proof.
  split.
  - intros Hnil v Hv%elem_successors. unfold successors in Hv.
    rewrite Hnil in Hv. by apply elem_of_nil in Hv.
  - intros Hno. apply elem_of_nil_inv. intros [[x y] b] [Hx Hin]%list_elem_of_filter.
    csimpl in *. subst. apply (Hno y). by apply (elem_lookup_edge_any _ _ _ b).
Qed.

Lemma in_edges_nil g n : in_edges g n = [] ↔ ∀ m, ¬ has_edge g m n.
Proof.
  split.
  - intros Hnil m Hm. assert ((m, n) ∈ in_edges g n) as Hin by (by apply elem_in_edges).
    rewrite Hnil in Hin. by apply elem_of_nil in Hin.
  - intros Hno. apply elem_of_nil_inv. intros [m n'] [-> Hm]%elem_in_edges.
    by apply (Hno m).
Qed.

Lemma successors_only g p n :
  successors g p = [n] → ∀ v, has_edge g p v ↔ v = n.
Proof.
  intros Hs v. rewrite <- elem_successors, Hs. apply list_elem_of_singleton.
Qed.
End GraphFacts.

(** ** Facts about the loops of [shape] *)

Section LoopFacts.
Context {V : Type}.
Implicit Types (g : DiGraph V) (self nxt x y : node).

Lemma bindR_ok {A B} (m : result A) (k : A → result B) r :
  bindR m k = ok r → ∃ r0, m = ok r0 ∧ k r0 = ok r.
Proof. destruct m; [done | eauto]. Qed.

Lemma NoDup_singleton_eq {A} (l : list A) (z : A) :
  NoDup l → (∀ w, w ∈ l ↔ w = z) → l = [z].
Proof.
  intros Hnd Hl. destruct l as [|w l].
  - exfalso. by apply (elem_of_nil z), Hl.
  - assert (w = z) as -> by (apply Hl, elem_of_cons; by left).
    f_equal. apply elem_of_nil_inv. intros w Hw.
    apply NoDup_cons in Hnd as [Hnin _]. apply Hnin.
    assert (w = z) as -> by (apply Hl, elem_of_cons; by right). done.
Qed.

(** The inner loop never fails on the incoming edges of [self]: it adds
    one edge per incoming edge, with the attributes of the incoming edge
    laid over those of an edge that was there already. *)
Lemma shape_in_edges_ok self nxt ins : ∀ g rem,
  NoDup ins →
  (∀ e, e ∈ ins → e.2 = self ∧ has_edge g e.1 self) →
  wf g → nxt ∈ nodes g →
  ∃ g', shape_in_edges g nxt ins rem = ok (g', rem ++ ins) ∧
    nodes g' = nodes g ∧ wf g' ∧
    ∀ x y, get_edge g' x y =
      if decide ((x, self) ∈ ins ∧ y = nxt)
      then Some (dict_update (default ∅ (get_edge g x nxt))
                             (default ∅ (get_edge g x self)))
      else get_edge g x y.
Proof.
  induction ins as [|[m s] ins IH]; intros g rem Hnd Hins Hwf Hnxt.
  - exists g. csimpl. rewrite app_nil_r. by split_and!.
  - apply NoDup_cons in Hnd as [Hnin Hnd].
    destruct (Hins (m, s)) as [Hs [b Hb]]; [apply elem_of_cons; by left|].
    csimpl in *. subst s. rewrite Hb.
    destruct (has_edge_nodes g m self Hwf) as [Hm _]; [by exists b|].
    destruct (IH (add_edge g m nxt b) (rem ++ [(m, self)])) as (g' & Hrun & Hn & Hwf' & Hget).
    + done.
    + intros e He. destruct (Hins e) as [? ?]; [apply elem_of_cons; by right|].
      split; [done|]. apply has_edge_add_edge. by right.
    + by apply wf_add_edge.
    + by rewrite nodes_add_edge.
    + exists g'. rewrite Hrun, <- app_assoc. csimpl.
      split_and!; [done | by rewrite Hn, nodes_add_edge | done |].
      intros x y. rewrite Hget, !get_edge_add_edge.
      assert (Hmem : (x, self) ∈ (m, self) :: ins ↔ x = m ∨ (x, self) ∈ ins).
      { rewrite elem_of_cons. split; intros [?|?]; simplify_eq; auto. }
      destruct (decide (x = m)) as [->|Hxm].
      * rewrite (decide_False (P := (m, self) ∈ ins ∧ y = nxt)) by (by intros [? _]).
        rewrite Hb. csimpl.
        destruct (decide (y = nxt)) as [->|Hy].
        -- rewrite !decide_True; [done | split; [tauto | done] | done].
        -- rewrite !decide_False; [done | by intros [_ ?] | by intros [_ ?]].
      * rewrite !(decide_False (P := x = m ∧ _)) by (by intros [? _]).
        destruct (decide ((x, self) ∈ ins ∧ y = nxt)) as [[Hx ->]|Hno].
        -- rewrite decide_True; [done | split; [tauto | done]].
        -- rewrite decide_False; [done|]. intros [Hx ->]. apply Hno. tauto.
Qed.

Lemma in_edges_spec g self e :
  e ∈ in_edges g self → e.2 = self ∧ has_edge g e.1 self.
Proof. destruct e as [m s]. by intros ?%elem_in_edges. Qed.

(** The outer loop never fails either.  [added] are the edges appended to
    [edges_to_remove], all of them incoming edges of [self]. *)
Lemma shape_next_states_ok self nexts : ∀ g rem,
  wf g → (∀ n, n ∈ nexts → n ∈ nodes g) →
  ∃ g' added, shape_next_states g self nexts rem = ok (g', rem ++ added) ∧
    nodes g' = nodes g ∧ wf g' ∧
    (∀ e, e ∈ added → e.2 = self ∧ has_edge g e.1 self) ∧
    (∀ x y, has_edge g' x y ↔ has_edge g x y ∨ (has_edge g x self ∧ y ∈ nexts)).
Proof.
  induction nexts as [|n nexts IH]; intros g rem Hwf Hnodes.
  - exists g, []. csimpl. rewrite app_nil_r. split_and!; try done.
    + by intros e ?%elem_of_nil.
    + intros x y. split; [by left|]. intros [?|[_ ?%elem_of_nil]]; done.
  - csimpl.
    destruct (shape_in_edges_ok self n (in_edges g self) g rem)
      as (g1 & -> & Hn1 & Hwf1 & Hget1).
    { by apply NoDup_in_edges. }
    { apply in_edges_spec. }
    { done. }
    { apply Hnodes, elem_of_cons; by left. }
    assert (Hhas1 : ∀ x y,
      has_edge g1 x y ↔ has_edge g x y ∨ (has_edge g x self ∧ y = n)).
    { intros x y. unfold has_edge at 1. rewrite Hget1. case_decide as Hc.
      - destruct Hc as [[_ Hx]%elem_in_edges ->]. split; [by right | by eauto].
      - fold (has_edge g x y). split; [by left|].
        intros [?|[Hx ->]]; [done|]. exfalso. apply Hc. split; [|done].
        by apply elem_in_edges. }
    csimpl.
    destruct (IH g1 (rem ++ in_edges g self)) as (g' & added & -> & Hn & Hwf' & Hadd & Hhas).
    { done. }
    { intros m Hm. rewrite Hn1. apply Hnodes, elem_of_cons; by right. }
    assert (Hself : ∀ x, has_edge g1 x self ↔ has_edge g x self).
    { intros x. rewrite Hhas1. tauto. }
    exists g', (in_edges g self ++ added). rewrite <- app_assoc.
    split_and!; [done | congruence | done | |].
    + intros e [He|He]%elem_of_app; [by apply in_edges_spec|].
      destruct (Hadd e He) as [? ?]. split; [done|]. by apply Hself.
    + intros x y. rewrite Hhas, Hhas1, Hself, elem_of_cons. tauto.
Qed.

Lemma remove_edges_inv rem : ∀ g g',
  remove_edges g rem = ok g' →
  nodes g' = nodes g ∧ (wf g → wf g') ∧
  ∀ x y, get_edge g' x y = if decide ((x, y) ∈ rem) then None else get_edge g x y.
Proof.
  induction rem as [|[u v] rem IH]; intros g g'; csimpl.
  - intros [= <-]. by split_and!.
  - intros (g1 & Hrm & Hrest)%bindR_ok.
    destruct (remove_edge_ok g u v) as (g1' & Hrm' & Hn1 & Hget1 & Hwf1).
    { by eapply remove_edge_inv. }
    rewrite Hrm in Hrm'. injection Hrm' as <-.
    destruct (IH _ _ Hrest) as (Hn & Hwf & Hget).
    split_and!; [congruence | tauto |].
    intros x y. rewrite Hget, Hget1.
    destruct (decide ((x, y) ∈ rem)) as [Hin|Hin].
    + rewrite decide_True; [done | apply elem_of_cons; by right].
    + destruct (decide (x = u ∧ y = v)) as [[-> ->]|Hne].
      * rewrite decide_True; [done | apply elem_of_cons; by left].
      * rewrite decide_False; [done|].
        intros [[= -> ->]|?]%elem_of_cons; [by apply Hne | done].
Qed.

Lemma remove_edges_ok rem : ∀ g,
  NoDup rem → (∀ e, e ∈ rem → has_edge g e.1 e.2) →
  ∃ g', remove_edges g rem = ok g'.
Proof.
  induction rem as [|[u v] rem IH]; intros g Hnd Hhas; csimpl.
  - by exists g.
  - apply NoDup_cons in Hnd as [Hnin Hnd].
    destruct (remove_edge_ok g u v) as (g1 & -> & Hn1 & Hget1 & Hwf1).
    { apply (Hhas (u, v)), elem_of_cons; by left. }
    csimpl. apply IH; [done|]. intros [x y] He. unfold has_edge. csimpl.
    rewrite Hget1, decide_False.
    + apply (Hhas (x, y)), elem_of_cons; by right.
    + intros [-> ->]. done.
Qed.

(** Removing an edge that is not there, or the same edge twice, raises. *)
Lemma remove_edges_absent rem : ∀ g e,
  e ∈ rem → ¬ has_edge g e.1 e.2 →
  ∃ msg subj, remove_edges g rem = raise (NetworkXError msg subj).
Proof.
  induction rem as [|[u v] rem IH]; intros g e He Hno; csimpl.
  - by apply elem_of_nil in He.
  - destruct (get_edge g u v) as [b|] eqn:Hb.
    + destruct (remove_edge_ok g u v) as (g1 & -> & Hn1 & Hget1 & Hwf1); [by exists b|].
      csimpl. apply elem_of_cons in He as [->|He].
      * exfalso. apply Hno. by exists b.
      * apply (IH g1 e He). unfold has_edge. rewrite Hget1.
        case_decide; [by intros [? ?] | done].
    + rewrite remove_edge_absent by done. csimpl. eauto.
Qed.

Lemma remove_edges_twice rem : ∀ g,
  ¬ NoDup rem → ∃ msg subj, remove_edges g rem = raise (NetworkXError msg subj).
Proof.
  induction rem as [|[u v] rem IH]; intros g Hdup; csimpl.
  - exfalso. apply Hdup. constructor.
  - destruct (get_edge g u v) as [b|] eqn:Hb.
    + destruct (remove_edge_ok g u v) as (g1 & -> & Hn1 & Hget1 & Hwf1); [by exists b|].
      csimpl. destruct (decide ((u, v) ∈ rem)) as [Hin|Hnin].
      * apply (remove_edges_absent rem g1 (u, v) Hin). unfold has_edge.
        rewrite Hget1, decide_True by done. by intros [? ?].
      * apply IH. intros Hnd. apply Hdup. by constructor.
    + rewrite remove_edge_absent by done. csimpl. eauto.
Qed.

Lemma shape_next_states_no_pred self nexts : ∀ g rem,
  in_edges g self = [] → shape_next_states g self nexts rem = ok (g, rem).
Proof.
  induction nexts as [|n nexts IH]; intros g rem Hin; csimpl; [done|].
  rewrite Hin. csimpl. by apply IH.
Qed.

Lemma successors_singleton g self n :
  wf g → successors g self = [n] ↔ ∀ v, has_edge g self v ↔ v = n.
Proof.
  intros Hwf. split; [apply successors_only|].
  intros Hs. apply NoDup_singleton_eq; [by apply NoDup_successors|].
  intros w. by rewrite elem_successors.
Qed.

Lemma filter_ext_elem {A} (P1 P2 : A → Prop)
    `{!∀ w, Decision (P1 w), !∀ w, Decision (P2 w)} (l : list A) :
  (∀ w, w ∈ l → (P1 w ↔ P2 w)) → filter P1 l = filter P2 l.
Proof.
  induction l as [|a l IH]; [done|]. intros Hiff.
  assert (P1 a ↔ P2 a) as Ha by (apply Hiff, elem_of_cons; by left).
  assert (filter P1 l = filter P2 l) as Hl.
  { apply IH. intros w Hw. apply Hiff, elem_of_cons; by right. }
  destruct (decide (P1 a)) as [H1|H1].
  - rewrite !filter_cons_True by tauto. by rewrite Hl.
  - rewrite !filter_cons_False by tauto. done.
Qed.

Lemma length_filter_ne (l : list node) (n : node) :
  NoDup l → n ∈ l → S (length (filter (λ m, m ≠ n) l)) = length l.
Proof.
  induction l as [|m l IH]; [by intros _ ?%elem_of_nil|].
  intros [Hnin Hnd]%NoDup_cons Hin. rewrite filter_cons.
  destruct (decide (m ≠ n)) as [Hne|Heq]; csimpl.
  - f_equal. apply IH; [done|]. apply elem_of_cons in Hin as [?|?]; [by subst | done].
  - apply dec_stable in Heq. subst m. f_equal. f_equal.
    clear IH Hin Hnd. induction l as [|k l IH]; [done|].
    apply not_elem_of_cons in Hnin as [? ?]. rewrite filter_cons_True by done.
    f_equal. by apply IH.
Qed.

Lemma two_members {A} (l : list A) (a b : A) :
  a ≠ b → a ∈ l → b ∈ l → ∃ c d l', l = c :: d :: l'.
Proof.
  intros Hab Ha Hb. destruct l as [|c [|d l']]; [by apply elem_of_nil in Ha | | eauto].
  apply list_elem_of_singleton in Ha, Hb. congruence.
Qed.
End LoopFacts.

(** ** Facts about [shape] *)

Section ShapeFacts.
Context {V : Type}.
Variable ast_node : node → stmt.
Implicit Types (g : DiGraph V) (self nxt x y : node).

Lemma State_edges_node g self :
  self ∈ nodes g → State_edges g self = ok (out_edges g self).
Proof. intros H. unfold State_edges. by rewrite decide_True. Qed.

Lemma State_edges_absent g self :
  self ∉ nodes g → State_edges g self = raise KeyError.
Proof. intros H. unfold State_edges. by rewrite decide_False. Qed.

(** The early return does not look at the graph when the origin is not
    [pass]. *)
Lemma shape_not_Pass g self : ast_node self ≠ Pass → shape ast_node g self = ok g.
Proof. unfold shape. intros H. by destruct (ast_node self). Qed.

(** A no-op state that is not a node of the graph has no edges to count. *)
Lemma shape_absent g self :
  ast_node self = Pass → self ∉ nodes g → shape ast_node g self = raise KeyError.
Proof.
  intros HP Hn. unfold shape. rewrite HP, State_edges_absent by done. done.
Qed.

Lemma retained_shape g self :
  retained ast_node g self → self ∈ nodes g ∨ ast_node self ≠ Pass →
  shape ast_node g self = ok g.
Proof.
  intros Hr Hin. destruct (is_Pass (ast_node self)) eqn:Hb.
  - assert (ast_node self = Pass) as HP by (by destruct (ast_node self)).
    destruct Hin as [Hin|?]; [|done].
    unfold shape. rewrite HP, State_edges_node by done. csimpl.
    destruct (out_edges g self) eqn:E; [done|].
    exfalso. apply Hr. split; [done|]. by rewrite E.
  - apply shape_not_Pass. intros HP. by rewrite HP in Hb.
Qed.

Lemma elidable_dec g self : elidable ast_node g self ∨ retained ast_node g self.
Proof.
  unfold retained, elidable.
  destruct (ast_node self); try (right; intros [? _]; done).
  destruct (out_edges g self); [right; intros [_ ?]; done | left; done].
Qed.

Lemma elidable_has_edge g self :
  elidable ast_node g self ↔ ast_node self = Pass ∧ ∃ v, has_edge g self v.
Proof.
  unfold elidable. split; intros [HP H]; (split; [done|]).
  - destruct (out_edges g self) as [|[[x y] b] l] eqn:E; [done|].
    exists y. apply elem_successors. unfold successors. rewrite E. csimpl.
    assert ((x, y, b) ∈ out_edges g self) as [Hx _]%list_elem_of_filter
      by (rewrite E; apply elem_of_cons; by left).
    apply elem_of_cons; by left.
  - destruct H as [v Hv]. intros Hnil. by apply (proj1 (out_edges_nil g self) Hnil v).
Qed.

Lemma elidable_node g self : wf g → elidable ast_node g self → self ∈ nodes g.
Proof.
  intros Hwf [_ [v Hv]]%elidable_has_edge.
  by destruct (has_edge_nodes g self v Hwf Hv).
Qed.

Lemma absent_retained g x : wf g → x ∉ nodes g → retained ast_node g x.
Proof. intros Hwf Hx He. by apply Hx, elidable_node. Qed.

Lemma elidable_shape g self :
  wf g → elidable ast_node g self →
  shape ast_node g self =
    do (g, edges_to_remove) <-
      shape_next_states g self (successors g self) [];
    do g <- remove_edges g edges_to_remove;
    remove_node g self.
Proof.
  intros Hwf He. pose proof (elidable_node g self Hwf He) as Hin.
  destruct He as [HP Hne]. unfold shape.
  rewrite HP, State_edges_node by done. csimpl.
  destruct (out_edges g self); done.
Qed.

(** Eliding a no-op node with one successor: every predecessor [x] gets the
    edge [x → nxt] with the attributes of [x → self], the edges at [self]
    and [self] itself go, and nothing else changes. *)
Lemma shape_elide_single g self nxt :
  wf g → ast_node self = Pass →
  (∀ v, has_edge g self v ↔ v = nxt) →
  ∃ g', shape ast_node g self = ok g' ∧ wf g' ∧
    nodes g' = filter (λ m, m ≠ self) (nodes g) ∧
    ∀ x y, get_edge g' x y =
      if decide (x = self ∨ y = self) then None
      else if decide (y = nxt ∧ has_edge g x self)
      then Some (dict_update (default ∅ (get_edge g x nxt))
                             (default ∅ (get_edge g x self)))
      else get_edge g x y.
Proof.
  intros Hwf HP Hsucc.
  assert (Hnxt : has_edge g self nxt) by by apply Hsucc.
  destruct (has_edge_nodes g self nxt Hwf Hnxt) as [Hself Hnxtn].
  rewrite elidable_shape by (try apply elidable_has_edge; eauto).
  rewrite (NoDup_singleton_eq (successors g self) nxt).
  2: { by apply NoDup_successors. }
  2: { intros w. by rewrite elem_successors. }
  csimpl.
  destruct (shape_in_edges_ok self nxt (in_edges g self) g [])
    as (g1 & -> & Hn1 & Hwf1 & Hget1);
    [by apply NoDup_in_edges | apply in_edges_spec | done | done |].
  csimpl.
  destruct (remove_edges_ok (in_edges g self) g1) as [g2 Hrm].
  { by apply NoDup_in_edges. }
  { intros [m s] [-> Hm]%elem_in_edges. unfold has_edge. csimpl.
    rewrite Hget1. by case_decide. }
  rewrite Hrm. csimpl.
  apply remove_edges_inv in Hrm as (Hn2 & Hwf2 & Hget2).
  destruct (remove_node_ok g2 self) as (g3 & -> & Hn3 & Hget3 & Hwf3).
  { congruence. }
  exists g3. split_and!; [done | tauto | congruence |].
  intros x y. rewrite Hget3.
  destruct (decide (x = self ∨ y = self)) as [Hxy|Hxy].
  { rewrite decide_False; [done | tauto]. }
  rewrite decide_True by tauto.
  rewrite Hget2, decide_False by (intros [? _]%elem_in_edges; tauto).
  rewrite Hget1.
  destruct (decide (y = nxt ∧ has_edge g x self)) as [[-> Hx]|Hno].
  - rewrite decide_True; [done|]. split; [|done]. by apply elem_in_edges.
  - rewrite decide_False; [done|]. intros [[_ ?]%elem_in_edges ->]. tauto.
Qed.

(** Eliding a no-op node without incoming edges, whatever its successors:
    both loops add and queue nothing, and the node goes with its outgoing
    edges. *)
Lemma shape_elide_source g self :
  wf g → elidable ast_node g self → in_edges g self = [] →
  shape ast_node g self =
    ok {| nodes := filter (λ m, m ≠ self) (nodes g);
          edges := filter (λ e, e.1.1 ≠ self) (edges g) |}.
Proof.
  intros Hwf He Hin. pose proof (elidable_node g self Hwf He) as Hself.
  rewrite elidable_shape by done.
  rewrite shape_next_states_no_pred by done. csimpl.
  unfold remove_node. rewrite decide_True by done. do 2 f_equal.
  apply filter_ext_elem. intros [[x y] b] Hel. csimpl. split; [tauto|].
  intros Hx. split; [done|]. intros ->.
  assert ((x, self) ∈ in_edges g self) as Hc.
  { apply elem_in_edges. split; [done|]. by apply (elem_lookup_edge_any _ _ _ b). }
  rewrite Hin in Hc. by apply elem_of_nil in Hc.
Qed.

(** A no-op node with two successors and a predecessor: the incoming edge
    is listed for removal once per successor, and its second removal
    raises. *)
Lemma shape_fan_out_raises g self (n1 n2 m : node) :
  wf g → ast_node self = Pass →
  n1 ≠ n2 → has_edge g self n1 → has_edge g self n2 → has_edge g m self →
  ∃ msg subj, shape ast_node g self = raise (NetworkXError msg subj).
Proof.
  intros Hwf HP Hne H1 H2 Hm.
  rewrite elidable_shape by (try apply elidable_has_edge; eauto).
  destruct (two_members (successors g self) n1 n2) as (c & d & rest & Hs);
    [done | by apply elem_successors | by apply elem_successors |].
  assert (Hnodes : ∀ n, n ∈ successors g self → n ∈ nodes g).
  { intros n Hn%elem_successors. by destruct (has_edge_nodes g self n Hwf Hn). }
  rewrite Hs in *. csimpl.
  destruct (shape_in_edges_ok self c (in_edges g self) g [])
    as (g1 & -> & Hn1 & Hwf1 & Hget1);
    [by apply NoDup_in_edges | apply in_edges_spec | done | |].
  { apply Hnodes. unfold_elem. tauto. }
  csimpl.
  destruct (shape_in_edges_ok self d (in_edges g1 self) g1 (in_edges g self))
    as (g2 & -> & Hn2 & Hwf2 & Hget2);
    [by apply NoDup_in_edges | apply in_edges_spec | done | |].
  { rewrite Hn1. apply Hnodes. unfold_elem. tauto. }
  csimpl.
  destruct (shape_next_states_ok self rest g2 (in_edges g self ++ in_edges g1 self))
    as (g3 & added & -> & _); [done | |].
  { intros n Hn. rewrite Hn2, Hn1. apply Hnodes. unfold_elem. tauto. }
  csimpl.
  destruct (remove_edges_twice ((in_edges g self ++ in_edges g1 self) ++ added) g3)
    as (msg & subj & ->); [|csimpl; eauto].
  rewrite <- app_assoc. intros (_ & Hdisj & _)%NoDup_app.
  apply (Hdisj (m, self)); [by apply elem_in_edges|].
  apply elem_of_app; left. apply elem_in_edges. split; [done|].
  unfold has_edge. rewrite Hget1. case_decide; [done | apply Hm].
Qed.
End ShapeFacts.

(** ** What a returned [shape] leaves *)

Section ShapeSteps.
Context {V : Type}.
Variable ast_node : node → stmt.
Implicit Types (g : DiGraph V) (self nxt x y : node).

(** [shape] returns on an elidable node only when the node has no incoming
    edge or has one successor. *)
Lemma shape_returns_cases g self g' :
  wf g → elidable ast_node g self → shape ast_node g self = ok g' →
  in_edges g self = [] ∨ ∃ n, successors g self = [n].
Proof.
  intros Hwf He Hrun. pose proof He as [HP [v Hv]]%elidable_has_edge.
  destruct (in_edges g self) as [|[m s] ins] eqn:Hi; [by left|]. right.
  assert ((m, s) ∈ in_edges g self) as [_ Hm]%elem_in_edges
    by (rewrite Hi; apply elem_of_cons; by left).
  destruct (successors g self) as [|c [|d rest]] eqn:Hs.
  - apply elem_successors in Hv. rewrite Hs in Hv. by apply elem_of_nil in Hv.
  - by exists c.
  - exfalso. pose proof (NoDup_successors g self Hwf) as Hnd. rewrite Hs in Hnd.
    apply NoDup_cons in Hnd as [Hcd _].
    destruct (shape_fan_out_raises ast_node g self c d m)
      as (msg & subj & Hraise); try done.
    + intros ->. apply Hcd. apply elem_of_cons; by left.
    + apply elem_successors. rewrite Hs. apply elem_of_cons; by left.
    + apply elem_successors. rewrite Hs. apply elem_of_cons; right.
      apply elem_of_cons; by left.
    + by rewrite Hraise in Hrun.
Qed.

(** The attributes after a returned elision, in one formula for both cases:
    [nxt] is a successor of the elided node, the only one when the node has
    an incoming edge. *)
Lemma shape_elided_edges g self g' :
  wf g → elidable ast_node g self → shape ast_node g self = ok g' →
  ∃ nxt, has_edge g self nxt ∧ wf g' ∧
    nodes g' = filter (λ m, m ≠ self) (nodes g) ∧
    ∀ x y, get_edge g' x y =
      if decide (x = self ∨ y = self) then None
      else if decide (y = nxt ∧ has_edge g x self)
      then Some (dict_update (default ∅ (get_edge g x nxt))
                             (default ∅ (get_edge g x self)))
      else get_edge g x y.
Proof.
  intros Hwf He Hrun. pose proof He as [HP [v Hv]]%elidable_has_edge.
  destruct (shape_returns_cases g self g' Hwf He Hrun) as [Hin|[n Hn]].
  - exists v. split; [done|].
    rewrite elidable_shape, shape_next_states_no_pred in Hrun by done.
    csimpl in Hrun.
    destruct (remove_node_ok g self) as (g3 & Hrun3 & Hn3 & Hget3 & Hwf3).
    { by apply (elidable_node ast_node). }
    rewrite Hrun in Hrun3. injection Hrun3 as <-.
    split_and!; [tauto | done |].
    intros x y. rewrite Hget3.
    destruct (decide (x = self ∨ y = self)) as [Hxy|Hxy].
    { rewrite decide_False; [done | tauto]. }
    rewrite decide_True by tauto.
    rewrite decide_False; [done|]. intros [_ Hx].
    by apply (proj1 (in_edges_nil g self) Hin x).
  - pose proof (proj1 (successors_singleton g self n Hwf) Hn) as Hs.
    destruct (shape_elide_single ast_node g self n Hwf HP Hs)
      as (g'' & Hrun' & Hwf' & Hnodes & Hget).
    rewrite Hrun in Hrun'. injection Hrun' as <-.
    exists n. split_and!; [by apply Hs | done | done | done].
Qed.

(** The edges after a returned elision, as a relation. *)
Lemma shape_elided g self g' :
  wf g → elidable ast_node g self → shape ast_node g self = ok g' →
  wf g' ∧ nodes g' = filter (λ m, m ≠ self) (nodes g) ∧
  ∀ x y, has_edge g' x y ↔
    x ≠ self ∧ y ≠ self ∧
    (has_edge g x y ∨ (has_edge g x self ∧ has_edge g self y)).
Proof.
  intros Hwf He Hrun. rewrite elidable_shape in Hrun by done.
  destruct (shape_next_states_ok self (successors g self) g [])
    as (g1 & added & Hrun1 & Hn1 & Hwf1 & Hadd & Hhas1); [done | |].
  { intros n Hn%elem_successors. by apply (has_edge_nodes g self n). }
  rewrite Hrun1 in Hrun. csimpl in Hrun.
  apply bindR_ok in Hrun as (g2 & Hrm & Hrun).
  apply remove_edges_inv in Hrm as (Hn2 & Hwf2 & Hget2).
  destruct (remove_node_ok g2 self) as (g3 & Hrun3 & Hn3 & Hget3 & Hwf3).
  { by eapply remove_node_inv. }
  rewrite Hrun in Hrun3. injection Hrun3 as <-.
  split_and!; [tauto | congruence |].
  intros x y. unfold has_edge at 1. rewrite Hget3.
  case_decide as Hxy; [|split; [by intros [? ?] | tauto]].
  destruct Hxy as [Hx Hy]. rewrite Hget2.
  rewrite decide_False.
  2: { intros Hin. csimpl in Hin. apply Hadd in Hin as [? _]. done. }
  fold (has_edge g1 x y). rewrite Hhas1, elem_successors. tauto.
Qed.

(** A returned [shape] left the graph as it was, on a retained node, or
    elided the node. *)
Lemma shape_inv g self g' :
  wf g → shape ast_node g self = ok g' →
  (retained ast_node g self ∧ g' = g) ∨
  (elidable ast_node g self ∧ wf g' ∧
   nodes g' = filter (λ m, m ≠ self) (nodes g) ∧
   ∀ x y, has_edge g' x y →
     x ≠ self ∧ y ≠ self ∧
     (has_edge g x y ∨ (has_edge g x self ∧ has_edge g self y))).
Proof.
  intros Hwf Hrun. destruct (elidable_dec ast_node g self) as [He|Hr].
  - right. split; [done|].
    destruct (shape_elided g self g' Hwf He Hrun) as (Hwf' & Hn & Hhas).
    split_and!; [done | done |]. intros x y. by rewrite Hhas.
  - left. split; [done|]. destruct (is_Pass (ast_node self)) eqn:Hb.
    + assert (ast_node self = Pass) as HP by (by destruct (ast_node self)).
      destruct (decide (self ∈ nodes g)) as [Hin|Hin].
      * rewrite retained_shape in Hrun by auto. by injection Hrun.
      * by rewrite shape_absent in Hrun.
    + rewrite shape_not_Pass in Hrun; [by injection Hrun|].
      intros HP. by rewrite HP in Hb.
Qed.

Lemma shape_wf g self g' : wf g → shape ast_node g self = ok g' → wf g'.
Proof.
  intros Hwf [[_ ->]|(_ & ? & _)]%shape_inv; done.
Qed.

Lemma shape_nodes_subset g self g' x :
  wf g → shape ast_node g self = ok g' → x ∈ nodes g' → x ∈ nodes g.
Proof.
  intros Hwf [[_ ->]|(_ & _ & -> & _)]%shape_inv; [done | | done].
  by intros [_ ?]%list_elem_of_filter.
Qed.

(** Only the shaped node can leave the graph. *)
Lemma shape_keeps_others g self g' x :
  wf g → shape ast_node g self = ok g' → x ≠ self → x ∈ nodes g → x ∈ nodes g'.
Proof.
  intros Hwf [[_ ->]|(_ & _ & -> & _)]%shape_inv Hx Hin; [done | | done].
  by apply list_elem_of_filter.
Qed.

(** A retained node stays in the graph, and stays retained, whichever node
    is shaped: an elision only gives new edges to nodes that had one. *)
Lemma shape_keeps_retained g self g' x :
  wf g → shape ast_node g self = ok g' →
  retained ast_node g x →
  retained ast_node g' x ∧ (x ∈ nodes g → x ∈ nodes g').
Proof.
  intros Hwf [[_ ->]|(Hel & _ & Hn & Hhas)]%shape_inv Hr; [done | | done].
  split.
  - intros [HP [v Hv]]%elidable_has_edge. apply Hr, elidable_has_edge.
    split; [done|]. destruct (Hhas x v Hv) as (_ & _ & [?|[? _]]); eauto.
  - intros Hx. rewrite Hn. apply list_elem_of_filter. split; [|done].
    intros ->. by apply Hr.
Qed.

Lemma shape_settles g self g' :
  wf g → shape ast_node g self = ok g' → retained ast_node g' self.
Proof.
  intros Hwf [[? ->]|(_ & _ & _ & Hhas)]%shape_inv; [done | | done].
  intros [_ [v Hv]]%elidable_has_edge. by destruct (Hhas self v Hv) as [? _].
Qed.

Lemma shape_each_inv order : ∀ g g',
  wf g → shape_each ast_node g order = ok g' →
  wf g' ∧ (∀ x, x ∈ nodes g' → x ∈ nodes g) ∧
  (∀ x, retained ast_node g x →
        retained ast_node g' x ∧ (x ∈ nodes g → x ∈ nodes g')) ∧
  (∀ x, x ∈ order → retained ast_node g' x).
Proof.
  induction order as [|self order IH]; intros g g' Hwf; csimpl.
  - intros [= <-]. split_and!; try done. by intros x ?%elem_of_nil.
  - intros (g1 & Hstep & Hrest)%bindR_ok.
    pose proof (shape_wf _ _ _ Hwf Hstep) as Hwf1.
    destruct (IH _ _ Hwf1 Hrest) as (Hwf' & Hsub & Hkeep & Hdone).
    split_and!; [done | | |].
    + intros x Hx. eapply shape_nodes_subset; eauto.
    + intros x Hr.
      destruct (shape_keeps_retained _ _ _ x Hwf Hstep Hr) as [Hr1 Hn1].
      destruct (Hkeep x Hr1) as [Hr2 Hn2]. auto.
    + intros x [->|Hx]%elem_of_cons; [|auto].
      apply Hkeep. exact (shape_settles _ _ _ Hwf Hstep).
Qed.

(** Shaping retained nodes of the graph changes nothing. *)
Lemma shape_each_retained order : ∀ g,
  (∀ x, x ∈ order →
        retained ast_node g x ∧ (x ∈ nodes g ∨ ast_node x ≠ Pass)) →
  shape_each ast_node g order = ok g.
Proof.
  induction order as [|self order IH]; intros g Hall; csimpl; [done|].
  destruct (Hall self) as [Hr Hin]; [apply elem_of_cons; by left|].
  rewrite retained_shape by done. csimpl.
  apply IH. intros x Hx. apply Hall, elem_of_cons; by right.
Qed.
End ShapeSteps.

(** ** Eliding the nodes of a chain *)

Section ElideEdges.
Context {V : Type}.
Variables (g g' : DiGraph V) (self nxt : node).
Hypothesis Hget : ∀ x y, get_edge g' x y =
  if decide (x = self ∨ y = self) then None
  else if decide (y = nxt ∧ has_edge g x self)
  then Some (dict_update (default ∅ (get_edge g x nxt))
                         (default ∅ (get_edge g x self)))
  else get_edge g x y.

Lemma elide_has_edge x y :
  has_edge g' x y ↔
    x ≠ self ∧ y ≠ self ∧ ((y = nxt ∧ has_edge g x self) ∨ has_edge g x y).
Proof using Hget.
  unfold has_edge at 1. rewrite Hget.
  destruct (decide (x = self ∨ y = self)) as [Hxy|Hxy].
  { split; [by intros [? ?] | tauto]. }
  destruct (decide (y = nxt ∧ has_edge g x self)) as [Hc|Hc].
  - split; [intros _; tauto | eauto].
  - fold (has_edge g x y). tauto.
Qed.

(** A node whose one successor was [s] has the successor [s], or [nxt] when
    [s] was the elided node, unless that is the elided node itself. *)
Lemma elide_successor p s :
  p ≠ self → (∀ v, has_edge g p v ↔ v = s) →
  ∀ v, has_edge g' p v ↔
         v ≠ self ∧ v = (if decide (s = self) then nxt else s).
Proof using Hget.
  intros Hp Hs v. rewrite elide_has_edge, !Hs.
  case_decide; subst; split; intros; destruct_and?; destruct_or?;
    destruct_and?; subst; try done; split_and!; auto.
Qed.
End ElideEdges.

Section ElideChain.
Context {V : Type}.
Variable ast_node : node → stmt.
Variables (g g' : DiGraph V) (self nxt : node).
Hypothesis Hget : ∀ x y, get_edge g' x y =
  if decide (x = self ∨ y = self) then None
  else if decide (y = nxt ∧ has_edge g x self)
  then Some (dict_update (default ∅ (get_edge g x nxt))
                         (default ∅ (get_edge g x self)))
  else get_edge g x y.

Lemma pass_chain_successor l C q v :
  pass_chain ast_node g l C → q ∈ l → has_edge g q v → v ∈ l ++ [C].
Proof using Type.
  induction l as [|p l IH]; csimpl; [by intros _ ?%elem_of_nil|].
  intros (_ & Hs & Hl) [->|Hq]%elem_of_cons Hv.
  - apply Hs in Hv as ->. apply elem_of_cons; right.
    destruct l; csimpl; apply elem_of_cons; by left.
  - apply elem_of_cons; right. by apply IH.
Qed.


End ElideChain.

Section ChainElision.
Context {V : Type}.
Variable ast_node : node → stmt.
Variables (A B : node) (a1 : gmap string V).
Implicit Types (g : DiGraph V) (qs : list node).




End ChainElision.

(** ** When a sequence of [shape] calls returns *)

Section ShapeReturns.
Context {V : Type}.
Variable ast_node : node → stmt.
Implicit Types (g : DiGraph V) (self x y : node).

(** [shape] returns on a node of the graph that, when elidable, has one
    successor or no incoming edge. *)
Lemma shape_returns g self :
  wf g → self ∈ nodes g ∨ ast_node self ≠ Pass →
  (elidable ast_node g self →
   (∃ n, ∀ v, has_edge g self v ↔ v = n) ∨ (∀ m, ¬ has_edge g m self)) →
  ∃ g', shape ast_node g self = ok g'.
Proof.
  intros Hwf Hin Hcase. destruct (elidable_dec ast_node g self) as [He|Hr].
  - destruct (Hcase He) as [[n Hs]|Hno].
    + destruct (shape_elide_single ast_node g self n Hwf (proj1 He) Hs)
        as (g' & -> & _). eauto.
    + rewrite shape_elide_source; [eauto | done | done | by apply in_edges_nil].
  - exists g. by apply retained_shape.
Qed.

(** A returned [shape] keeps the property that every elidable node has one
    successor or no incoming edge: a node with one successor keeps one, and
    only a node that had a predecessor gets a new one. *)
Lemma shape_keeps_no_fan_out g self g' :
  wf g → shape ast_node g self = ok g' →
  (∀ x, elidable ast_node g x →
     (∃ n, ∀ v, has_edge g x v ↔ v = n) ∨ (∀ m, ¬ has_edge g m x)) →
  ∀ x, elidable ast_node g' x →
    (∃ n, ∀ v, has_edge g' x v ↔ v = n) ∨ (∀ m, ¬ has_edge g' m x).
Proof.
  intros Hwf Hrun Hg y Hy.
  destruct (elidable_dec ast_node g self) as [He|Hr].
  2: { destruct (shape_inv ast_node g self g' Hwf Hrun) as [[_ ->]|[? _]];
         [by apply Hg | done]. }
  destruct (shape_elided_edges ast_node g self g' Hwf He Hrun)
    as (n & Hsucc & Hwf' & Hnodes & Hget).
  destruct (elidable_dec ast_node g y) as [Hey|Hry].
  2: { by destruct (shape_keeps_retained ast_node g self g' y Hwf Hrun Hry). }
  pose proof Hy as [_ [v0 Hv0]]%elidable_has_edge.
  assert (y ≠ self) as Hyx.
  { apply (elide_has_edge g g' self n Hget) in Hv0. tauto. }
  destruct (Hg y Hey) as [[s Hs]|Hno].
  - left. pose proof (elide_successor g g' self n Hget y s Hyx Hs) as Hnew.
    exists (if decide (s = self) then n else s). intros v. rewrite Hnew.
    split; [tauto|]. intros ->. split; [|done].
    apply Hnew in Hv0. by destruct Hv0 as [? <-].
  - right. intros m Hm.
    apply (elide_has_edge g g' self n Hget) in Hm as (_ & _ & [[-> _]|Hm]).
    + by apply (Hno self).
    + by apply (Hno m).
Qed.

(** Shaping nodes of the graph, each once, returns on such a graph. *)
Lemma shape_each_returns order : ∀ g,
  wf g → NoDup order → (∀ x, x ∈ order → x ∈ nodes g) →
  (∀ x, elidable ast_node g x →
     (∃ n, ∀ v, has_edge g x v ↔ v = n) ∨ (∀ m, ¬ has_edge g m x)) →
  ∃ g', shape_each ast_node g order = ok g' ∧
    ∀ x, elidable ast_node g' x →
      (∃ n, ∀ v, has_edge g' x v ↔ v = n) ∨ (∀ m, ¬ has_edge g' m x).
Proof.
  induction order as [|self order IH]; intros g Hwf Hnd Hin Hg; csimpl.
  - by exists g.
  - apply NoDup_cons in Hnd as [Hnin Hnd].
    destruct (shape_returns g self) as [g1 Hstep];
      [done | left; apply Hin, elem_of_cons; by left | by apply Hg |].
    rewrite Hstep. csimpl. apply IH.
    + by apply (shape_wf ast_node g self).
    + done.
    + intros x Hx. apply (shape_keeps_others ast_node g self g1); [done | done | |].
      * by intros ->.
      * apply Hin, elem_of_cons; by right.
    + by apply (shape_keeps_no_fan_out g self g1).
Qed.
End ShapeReturns.

(** ** The shaping pass on graphs *)

Section Shaping.
Context {V : Type}.
Variable ast_node : node → stmt.
Implicit Types (g : DiGraph V) (self : node).

Lemma wfb_wf g : wfb g = true → wf g.
Proof.
  unfold wfb. intros [[H1 H2]%andb_prop H3]%andb_prop.
  apply bool_decide_eq_true in H1, H2. split; [done | done |].
  intros u v a Hin. rewrite forallb_forall in H3.
  apply list_elem_of_In, H3 in Hin. csimpl in Hin.
  apply andb_prop in Hin as [Hu Hv].
  by apply bool_decide_eq_true in Hu, Hv.
Qed.

Lemma elidableb_spec g self :
  elidableb ast_node g self = true ↔ elidable ast_node g self.
Proof.
  unfold elidableb, elidable.
  destruct (ast_node self); csimpl; try (split; [done | by intros [? _]]).
  destruct (out_edges g self); csimpl; split; try done. by intros [_ ?].
Qed.




(** C5. Idempotence of shaping: once every node of a graph has been
    shaped, in any order, no elidable node is left, so [shape] leaves the
    shaped graph as it is at every remaining node, and so does any further
    pass over remaining nodes, [shaping_pass] among them.  (A state that is
    no longer in the graph is left alone too, unless its origin is [pass]:
    the edges of a removed no-op state cannot be read.) *)
Theorem shaping_idempotent g (order : list node) g' :
  wf g → (∀ x, x ∈ nodes g → x ∈ order) →
  shape_each ast_node g order = ok g' →
  (∀ n, retained ast_node g' n) ∧
  (∀ n, n ∈ nodes g' ∨ ast_node n ≠ Pass → shape ast_node g' n = ok g') ∧
  (∀ order', (∀ n, n ∈ order' → n ∈ nodes g' ∨ ast_node n ≠ Pass) →
     shape_each ast_node g' order' = ok g') ∧
  shaping_pass ast_node g' = ok g'.
Proof.
  intros Hwf Horder Hrun.
  destruct (shape_each_inv ast_node order g g' Hwf Hrun)
    as (Hwf' & Hsub & _ & Hdone).
  assert (Hall : ∀ n, retained ast_node g' n).
  { intros n. destruct (decide (n ∈ nodes g')) as [Hn|Hn].
    - by apply Hdone, Horder, Hsub.
    - by apply absent_retained. }
  split_and!; [done | | |].
  - intros n Hn. apply retained_shape; auto.
  - intros order' Hin. apply shape_each_retained. auto.
  - apply shape_each_retained. auto.
Qed.
End Shaping.

(** ** Serialization of a Pass state *)

Section Serialization.
Context {V : Type}.
Variable ast_node : node → stmt.
Variable literal_eval : expr → option pyvalue.
Variable json_serializable : pyvalue → bool.
Variable convert_input_data_ref : expr → result string.
Variable INVALID_RESULT_PATH_PATTERN : string → bool.
Variable RESERVED_INPUT_DATA_KEYS : list string.
Variable _set_end_or_next :
  DiGraph V → node → gmap string pyvalue → result (gmap string pyvalue).
Implicit Types (g : DiGraph V) (self : node).

Local Abbreviation parse_result :=
  (_parse_result ast_node literal_eval json_serializable).
Local Abbreviation parse_result_path :=
  (_parse_result_path ast_node convert_input_data_ref
     INVALID_RESULT_PATH_PATTERN RESERVED_INPUT_DATA_KEYS).
Local Abbreviation serialize :=
  (to_dict ast_node literal_eval json_serializable convert_input_data_ref
     INVALID_RESULT_PATH_PATTERN RESERVED_INPUT_DATA_KEYS _set_end_or_next).

(** The text that goes through the [try]: the value of an assignment, or
    the first argument of the call that another origin has as its value. *)
Lemma parse_result_source self source :
  (∃ targets, ast_node self = Assign targets source) ∨
  ((∀ targets value, ast_node self ≠ Assign targets value) ∧
   ∃ func args kws,
     stmt_value (ast_node self) = Some (Some (Call func (source :: args) kws))) →
  parse_result self =
    match
      result ← literal_eval source;
      if json_serializable result then Some result else None
    with
    | Some result => ok result
    | None => raise (UnsupportedOperation not_json_message (AStmt (ast_node self)))
    end.
Proof.
  unfold _parse_result.
  intros [[targets ->]|(Hassign & func & args & kws & Hval)]; [done|].
  destruct (ast_node self) as [| targets value | | | | | |]; csimpl in *;
    try discriminate Hval.
  - by destruct (Hassign targets value).
  - injection Hval as ->. done.
  - injection Hval as ->. done.
  - injection Hval as ->. done.
Qed.

(** An origin with a value that is not a call with an argument: the
    exception of [value.args[0]] leaves [_parse_result] as it is. *)
Lemma parse_result_no_argument self value :
  stmt_value (ast_node self) = Some value →
  (∀ targets v, ast_node self ≠ Assign targets v) →
  (∀ func arg args kws, value ≠ Some (Call func (arg :: args) kws)) →
  ∃ e, first_arg value = raise e ∧ parse_result self = raise e ∧
       (e = IndexError ∨ e = TypeError ∨ e = AttributeError).
Proof.
  intros Hval Hassign Hcall.
  assert (∃ e, first_arg value = raise e ∧
               (e = IndexError ∨ e = TypeError ∨ e = AttributeError))
    as (e & He & Hcases).
  { destruct value as [[| | | | | | | | | | | | func args kws | | |]|]; csimpl; eauto.
    destruct args as [|arg args]; [eauto|]. by destruct (Hcall func arg args kws). }
  exists e. split_and!; [done | | done].
  unfold _parse_result.
  destruct (ast_node self) as [| targets v | | | | | |]; csimpl in Hval;
    try discriminate Hval.
  - by destruct (Hassign targets v).
  - injection Hval as <-. cbv beta iota delta [stmt_value]. by rewrite He.
  - injection Hval as <-. cbv beta iota delta [stmt_value]. by rewrite He.
  - injection Hval as <-. cbv beta iota delta [stmt_value]. by rewrite He.
Qed.

Lemma parse_result_path_not_assign self :
  (∀ targets value, ast_node self ≠ Assign targets value) →
  parse_result_path self = ok "$".
Proof.
  unfold _parse_result_path. intros H.
  destruct (ast_node self); try done. by destruct (H targets value).
Qed.

Lemma to_dict_not_Pass g self r p :
  ast_node self ≠ Pass →
  parse_result self = ok r → parse_result_path self = ok p →
  serialize g self =
    _set_end_or_next g self
      (<[ "ResultPath" := PStr p ]>
         (<[ "Result" := r ]> {[ "Type" := PStr "Pass" ]})).
Proof.
  unfold to_dict. intros HP -> ->.
  destruct (ast_node self); done.
Qed.

Lemma to_dict_parse_result_raises g self e :
  ast_node self ≠ Pass → parse_result self = raise e →
  serialize g self = raise e.
Proof.
  unfold to_dict. intros HP ->. destruct (ast_node self); done.
Qed.

(** C3. Terminal preservation: a no-op node without outgoing edges is left
    alone by its own [shape], and stays in the graph without outgoing edges
    whatever nodes are shaped.  It serializes to the linkage of
    [Type: Pass] alone, with neither [Result] nor [ResultPath]; where the
    linkage of a node without outgoing edges is [End: true], as the spec
    has it, that is [Type: Pass, End: true]. *)
Theorem terminal_noop_kept g self :
  wf g → self ∈ nodes g →
  ast_node self = Pass → State_edges g self = ok [] →
  shape ast_node g self = ok g ∧
  ∀ order g', shape_each ast_node g order = ok g' →
    self ∈ nodes g' ∧ State_edges g' self = ok [] ∧
    serialize g' self =
      _set_end_or_next g' self {[ "Type" := PStr "Pass" ]} ∧
    ({[ "Type" := PStr "Pass" ]} : gmap string pyvalue) !! "Result" = None ∧
    ({[ "Type" := PStr "Pass" ]} : gmap string pyvalue) !! "ResultPath" = None ∧
    ((∀ data, _set_end_or_next g' self data =
                ok (<[ "End" := PBool true ]> data)) →
     ∃ d, serialize g' self = ok d ∧
          d = <[ "End" := PBool true ]> {[ "Type" := PStr "Pass" ]} ∧
          d !! "Result" = None ∧ d !! "ResultPath" = None).
Proof.
  intros Hwf Hself HP Hedges.
  rewrite (State_edges_node g self Hself) in Hedges. injection Hedges as Hedges.
  assert (Hr : retained ast_node g self) by (intros [_ ?]; done).
  split; [apply retained_shape; auto|].
  intros order g' Hrun.
  destruct (shape_each_inv ast_node order g g' Hwf Hrun) as (_ & _ & Hkeep & _).
  destruct (Hkeep self Hr) as [Hr' Hn'].
  assert (Hedges' : State_edges g' self = ok []).
  { rewrite State_edges_node by auto.
    destruct (out_edges g' self) eqn:E; [done|].
    exfalso. apply Hr'. split; [done|]. by rewrite E. }
  assert (Hrun' : serialize g' self =
            _set_end_or_next g' self {[ "Type" := PStr "Pass" ]}).
  { unfold to_dict. by rewrite HP. }
  split_and!; [auto | done | done | done | done |].
  intros Hlink. eexists. split_and!; [| reflexivity | done | done].
  by rewrite Hrun', Hlink.
Qed.

(** C4. Round trip of Pass values: an assignment [data[p] = v] whose value
    is a JSON-serializable literal and whose derived path does not match
    the reserved pattern serializes to [Type: Pass], [Result: v] and
    [ResultPath: path], handed to the End/Next linkage. *)
Theorem to_dict_assignment g self target targets value v path :
  ast_node self = Assign (target :: targets) value →
  literal_eval value = Some v →
  json_serializable v = true →
  convert_input_data_ref target = ok path →
  INVALID_RESULT_PATH_PATTERN path = false →
  serialize g self =
    _set_end_or_next g self
      (<[ "ResultPath" := PStr path ]>
         (<[ "Result" := v ]> {[ "Type" := PStr "Pass" ]})).
Proof.
  intros Hnode Hv Hjson Hpath Hpat. apply to_dict_not_Pass.
  - by rewrite Hnode.
  - rewrite (parse_result_source self value) by eauto.
    rewrite Hv. csimpl. by rewrite Hjson.
  - unfold _parse_result_path. rewrite Hnode. csimpl.
    rewrite Hpath. csimpl. by rewrite Hpat.
Qed.

(** C6. Reserved path rejection: for an assignment whose target has the
    derived path [path], the path parser raises [UnsupportedOperation]
    with the message that lists the reserved keys when the reserved
    pattern is found in [path], and returns [path] when it is not; with a
    value that parses, [to_dict] fails, or carries the path, accordingly. *)
Theorem reserved_result_path self target targets value path :
  ast_node self = Assign (target :: targets) value →
  convert_input_data_ref target = ok path →
  let reserved :=
    UnsupportedOperation
      ("Task result path is invalid. Check that it does not contain reserved keys: "
       +:+ String.concat ", " RESERVED_INPUT_DATA_KEYS)
      (AStmt (ast_node self)) in
  (INVALID_RESULT_PATH_PATTERN path = true →
     parse_result_path self = raise reserved ∧
     ∀ g r, parse_result self = ok r → serialize g self = raise reserved) ∧
  (INVALID_RESULT_PATH_PATTERN path = false →
     parse_result_path self = ok path ∧
     ∀ g r, parse_result self = ok r →
       serialize g self =
         _set_end_or_next g self
           (<[ "ResultPath" := PStr path ]>
              (<[ "Result" := r ]> {[ "Type" := PStr "Pass" ]}))).
Proof.
  intros Hnode Hpath reserved.
  assert (Hrun : parse_result_path self =
            if INVALID_RESULT_PATH_PATTERN path then raise reserved else ok path).
  { unfold _parse_result_path. subst reserved. rewrite Hnode. csimpl.
    rewrite Hpath. csimpl.
    destruct (INVALID_RESULT_PATH_PATTERN path); reflexivity. }
  split; intros Hpat; rewrite Hpat in Hrun; (split; [done|]); intros g r Hr.
  - unfold to_dict. rewrite Hnode, Hr, Hrun. done.
  - apply to_dict_not_Pass; [by rewrite Hnode | done | done].
Qed.

(** C7, as amended.  The result value: where the origin is an assignment,
    or has as its value a call with an argument, the value of the
    assignment, or the first argument of the call, is returned by
    [parse_result] when it is a literal that [json.dumps] accepts, and
    [parse_result] raises [UnsupportedOperation] with the origin when it is
    not a literal or is not accepted. *)
Theorem parse_result_json_literal self source :
  (∃ targets, ast_node self = Assign targets source) ∨
  ((∀ targets value, ast_node self ≠ Assign targets value) ∧
   ∃ func args kws,
     stmt_value (ast_node self) = Some (Some (Call func (source :: args) kws))) →
  (∀ v, literal_eval source = Some v → json_serializable v = true →
        parse_result self = ok v) ∧
  (literal_eval source = None ∨
   (∃ v, literal_eval source = Some v ∧ json_serializable v = false) →
   parse_result self =
     raise (UnsupportedOperation
              "Only JSON-serializeable values can be used to update the data object"
              (AStmt (ast_node self)))).
Proof.
  intros Hsrc. rewrite (parse_result_source self source Hsrc). split.
  - intros v -> Hjson. csimpl. by rewrite Hjson.
  - intros [->|(v & -> & Hjson)]; csimpl; [done|]. by rewrite Hjson.
Qed.

(** C10, as amended.  An origin that is neither the no-op marker nor an
    assignment: when its value is a call with an argument, and the first
    argument is a literal that [json.dumps] accepts, [to_dict] hands
    [Result], that literal, and [ResultPath], ["$"], to the linkage; when
    it has no [value] attribute, [Result] is the evaluation of [{}] and
    [ResultPath] is ["$"]; with any other value [to_dict] raises the
    exception of [value.args[0]]. *)
Theorem to_dict_update_call g self :
  ast_node self ≠ Pass →
  (∀ targets value, ast_node self ≠ Assign targets value) →
  (∀ func arg args kws v,
     stmt_value (ast_node self) = Some (Some (Call func (arg :: args) kws)) →
     literal_eval arg = Some v → json_serializable v = true →
     serialize g self =
       _set_end_or_next g self
         (<[ "ResultPath" := PStr "$" ]>
            (<[ "Result" := v ]> {[ "Type" := PStr "Pass" ]}))) ∧
  (∀ v,
     stmt_value (ast_node self) = None →
     literal_eval (Dict [] []) = Some v → json_serializable v = true →
     serialize g self =
       _set_end_or_next g self
         (<[ "ResultPath" := PStr "$" ]>
            (<[ "Result" := v ]> {[ "Type" := PStr "Pass" ]}))) ∧
  (∀ value,
     stmt_value (ast_node self) = Some value →
     (∀ func arg args kws, value ≠ Some (Call func (arg :: args) kws)) →
     ∃ e, serialize g self = raise e ∧
          (e = IndexError ∨ e = TypeError ∨ e = AttributeError)).
Proof.
  intros HP Hassign.
  pose proof (parse_result_path_not_assign self Hassign) as Hpath.
  split_and!.
  - intros func arg args kws v Hnode Hv Hjson.
    apply to_dict_not_Pass; [done | | done].
    rewrite (parse_result_source self arg) by eauto 10.
    rewrite Hv. csimpl. by rewrite Hjson.
  - intros v Hval Hv Hjson. apply to_dict_not_Pass; [done | | done].
    unfold _parse_result.
    destruct (ast_node self); try done; csimpl; rewrite Hv; csimpl;
      by rewrite Hjson.
  - intros value Hval Hcall.
    destruct (parse_result_no_argument self value Hval Hassign Hcall)
      as (e & _ & He & Hcases).
    exists e. split; [|done]. by apply to_dict_parse_result_raises.
Qed.
End Serialization.

(** ** Resource decorators *)

Section DecoratorFacts.
Variable GET_VALUE_MAP : ∀ t : pytype, expr → result (host t).

(** C8. Subscribe status: the string is extracted first; ["success"] and
    ["failure"] are returned as they are, any other string raises
    [UnsupportedOperation] with the allowed set and the string in the
    message; a failure of the extraction is the failure of the call. *)
Theorem subscribe_status_checked (node : expr) :
  (∀ value, GET_VALUE_MAP type_str node = ok value →
     (value = "success" ∨ value = "failure" →
      get_subscribe_status GET_VALUE_MAP node = ok value) ∧
     (value ≠ "success" → value ≠ "failure" →
      get_subscribe_status GET_VALUE_MAP node =
        raise (UnsupportedOperation
                 ("Status must be one of success|failure. Provided: " +:+ value)
                 (AExpr node)))) ∧
  (∀ e, GET_VALUE_MAP type_str node = raise e →
        get_subscribe_status GET_VALUE_MAP node = raise e).
Proof.
  unfold get_subscribe_status. split.
  - intros value ->. csimpl. split.
    + intros Hv. rewrite bool_decide_eq_true_2; [done|].
      unfold_elem. tauto.
    + intros H1 H2. rewrite bool_decide_eq_false_2; [done|].
      unfold_elem. tauto.
  - by intros e ->.
Qed.

(** C9. Decorator cardinality: the registry gives [export] a [max_count]
    of 1 and the one option [enabled] with default [True]; one [export()]
    on a function is accepted with [enabled] set to [True], a second one
    raises [UnsupportedOperation]. *)
Theorem export_applied_once :
  (∃ config option,
     assoc "export" (RESOURCE_DECORATOR_MAP GET_VALUE_MAP) = Some config ∧
     max_count config = Some 1 ∧
     options config = [("enabled", option)] ∧
     default_value option = Default (PBool true)) ∧
  (∀ call,
     validate_decorators GET_VALUE_MAP [] [export_call call] =
       ok [ {| effect_name := "export";
               values := {[ "enabled" := PBool true ]};
               origin := call |} ]) ∧
  (∀ call1 call2, ∃ message,
     validate_decorators GET_VALUE_MAP [] [export_call call1; export_call call2] =
       raise (UnsupportedOperation message (AExpr call2))).
Proof.
  split_and!.
  - by eexists _, _.
  - done.
  - intros call1 call2. by eexists.
Qed.
End DecoratorFacts.

(** ** The theorems on the sample inputs *)

Lemma chain_graph_wf : wf chain_graph.
Proof. by apply wfb_wf. Qed.

Lemma shaped_chain_graph_wf : wf shaped_chain_graph.
Proof. by apply wfb_wf. Qed.

Lemma fan_graph_wf : wf fan_graph.
Proof. by apply wfb_wf. Qed.

Lemma merge_graph_wf : wf merge_graph.
Proof. by apply wfb_wf. Qed.

Lemma start_graph_wf : wf start_graph.
Proof. by apply wfb_wf. Qed.

Lemma chain_graph_shaped :
  shaping_pass sample_origin chain_graph = ok shaped_chain_graph.
Proof. vm_compute. reflexivity. Qed.

Lemma merge_graph_shaped : shape sample_origin merge_graph 1 = ok merged_graph.
Proof. vm_compute. reflexivity. Qed.

Lemma spec_set_end_or_next_terminal {V} key (g : DiGraph V) self data :
  State_edges g self = ok [] →
  spec_set_end_or_next key g self data = ok (<[ "End" := PBool true ]> data).
Proof. unfold spec_set_end_or_next. by intros ->. Qed.

(** The two elidable nodes of [chain_graph] have one successor each. *)
Lemma chain_graph_single_successor x :
  elidable sample_origin chain_graph x →
  (∃ n, ∀ v, has_edge chain_graph x v ↔ v = n) ∨
  (∀ m, ¬ has_edge chain_graph m x).
Proof.
  intros Hx. left.
  pose proof (elidable_node sample_origin chain_graph x chain_graph_wf Hx) as Hin.
  apply elidableb_spec in Hx. simpl in Hin.
  repeat (apply elem_of_cons in Hin as [->|Hin]); try discriminate Hx.
  - exists 2. by apply successors_only.
  - exists 3. by apply successors_only.
  - by apply elem_of_nil in Hin.
Qed.



(** The failing input of C2: [shape] on node 1 of [fan_graph] lists the edge
    [0 → 1] twice and raises at its second removal. *)
Lemma shape_fan_out_example :
  shape sample_origin fan_graph 1 =
    raise (NetworkXError "The edge is not in the graph." [0; 1]).
Proof. vm_compute. reflexivity. Qed.

(** With one successor the same node is elided. *)
Lemma shape_single_successor_example :
  shape sample_origin (mkDiGraph [0; 1; 3] [(0, 1, branch_attrs); (1, 3, ∅)]) 1 =
    ok (mkDiGraph [0; 3] [(0, 3, branch_attrs)]).
Proof. vm_compute. reflexivity. Qed.

Lemma terminal_noop_kept_witness :
  shape sample_origin chain_graph 4 = ok chain_graph ∧
  4 ∈ nodes shaped_chain_graph ∧ State_edges shaped_chain_graph 4 = ok [] ∧
  sample_to_dict shaped_chain_graph 4 =
    ok (<[ "End" := PBool true ]> {[ "Type" := PStr "Pass" ]}).
Proof.
  destruct (terminal_noop_kept sample_origin py_literal_eval py_json_serializable
              doc_convert_input_data_ref (denylist_pattern sample_reserved_keys)
              sample_reserved_keys (spec_set_end_or_next sample_key) chain_graph 4)
    as [Hshape Hkept].
  - apply chain_graph_wf.
  - simpl. unfold_elem. tauto.
  - reflexivity.
  - reflexivity.
  - destruct (Hkept (nodes chain_graph) shaped_chain_graph chain_graph_shaped)
      as (Hin & Hedges & _ & _ & _ & Hend).
    destruct Hend as (d & Hd & -> & _).
    + intros data. by apply spec_set_end_or_next_terminal.
    + done.
Defined.

Lemma to_dict_assignment_witness :
  sample_to_dict chain_graph 0 =
    spec_set_end_or_next sample_key chain_graph 0
      (<[ "ResultPath" := PStr "$['x']" ]>
         (<[ "Result" := PInt 1 ]> {[ "Type" := PStr "Pass" ]})).
Proof.
  apply (to_dict_assignment sample_origin py_literal_eval py_json_serializable
           doc_convert_input_data_ref (denylist_pattern sample_reserved_keys)
           sample_reserved_keys (spec_set_end_or_next sample_key)
           chain_graph 0 (data_ref "x") [] (Num 1) (PInt 1) "$['x']");
    reflexivity.
Defined.

Lemma shaping_idempotent_witness :
  (∀ n, retained sample_origin shaped_chain_graph n) ∧
  (∀ n, n ∈ nodes shaped_chain_graph ∨ sample_origin n ≠ Pass →
        shape sample_origin shaped_chain_graph n = ok shaped_chain_graph) ∧
  (∀ order',
     (∀ n, n ∈ order' → n ∈ nodes shaped_chain_graph ∨ sample_origin n ≠ Pass) →
     shape_each sample_origin shaped_chain_graph order' = ok shaped_chain_graph) ∧
  shaping_pass sample_origin shaped_chain_graph = ok shaped_chain_graph.
Proof.
  apply (shaping_idempotent sample_origin chain_graph (nodes chain_graph)
           shaped_chain_graph).
  - apply chain_graph_wf.
  - auto.
  - apply chain_graph_shaped.
Defined.

(** [data["Result"] = 1] is rejected, [data["foo"]["bar"] = 1] is not. *)
Lemma reserved_result_path_witness :
  _parse_result_path sample_origin doc_convert_input_data_ref
    (denylist_pattern sample_reserved_keys) sample_reserved_keys 6 =
    raise (UnsupportedOperation
             "Task result path is invalid. Check that it does not contain reserved keys: Result, ResultPath"
             (AStmt (sample_origin 6))) ∧
  _parse_result_path sample_origin doc_convert_input_data_ref
    (denylist_pattern sample_reserved_keys) sample_reserved_keys 9 =
    ok "$['foo']['bar']".
Proof.
  split.
  - apply (reserved_result_path (V:=pyvalue) sample_origin py_literal_eval
             py_json_serializable doc_convert_input_data_ref
             (denylist_pattern sample_reserved_keys) sample_reserved_keys
             (spec_set_end_or_next sample_key)
             6 (data_ref "Result") [] (Num 1) "$['Result']"); reflexivity.
  - apply (reserved_result_path (V:=pyvalue) sample_origin py_literal_eval
             py_json_serializable doc_convert_input_data_ref
             (denylist_pattern sample_reserved_keys) sample_reserved_keys
             (spec_set_end_or_next sample_key)
             9 (Subscript (data_ref "foo") (Str "bar")) [] (Num 1)
             "$['foo']['bar']"); reflexivity.
Defined.

(** [{"a": 2}] is returned, as the value of an assignment and as the
    argument of [data.update]; the set [{1}] is a literal that [json.dumps]
    refuses. *)
Lemma parse_result_json_literal_witness :
  _parse_result sample_origin py_literal_eval py_json_serializable 3 =
    ok (PDict [(PStr "a", PInt 2)]) ∧
  _parse_result sample_origin py_literal_eval py_json_serializable 5 =
    ok (PDict [(PStr "a", PInt 2)]) ∧
  _parse_result sample_origin py_literal_eval py_json_serializable 7 =
    raise (UnsupportedOperation
             "Only JSON-serializeable values can be used to update the data object"
             (AStmt (sample_origin 7))).
Proof.
  split_and!.
  - apply (parse_result_json_literal sample_origin py_literal_eval
             py_json_serializable 3 (Dict [Some (Str "a")] [Num 2]));
      [left; by eexists | reflexivity | reflexivity].
  - apply (parse_result_json_literal sample_origin py_literal_eval
             py_json_serializable 5 (Dict [Some (Str "a")] [Num 2]));
      [right; split; [discriminate | by eexists _, _, _] | reflexivity | reflexivity].
  - apply (parse_result_json_literal sample_origin py_literal_eval
             py_json_serializable 7 (Set_ [Num 1])); [left; by eexists |].
    right. by exists (PSet [PInt 1]).
Defined.

(** The counterexample to C7 as it is stated: the origins [data["x"] += 1]
    and [data["x"] += y] have a right-hand value, a literal that
    [json.dumps] accepts and a name.  [_parse_result] takes the first
    argument of the value, which is no call: it raises [AttributeError] for
    both, so it neither returns the literal nor raises
    [UnsupportedOperation] for the name. *)
Lemma parse_result_augmented_counterexample :
  odd_origin 1 = AugAssign (data_ref "x") Add (Num 1) ∧
  py_literal_eval (Num 1) = Some (PInt 1) ∧
  py_json_serializable (PInt 1) = true ∧
  _parse_result odd_origin py_literal_eval py_json_serializable 1 =
    raise AttributeError ∧
  _parse_result odd_origin py_literal_eval py_json_serializable 1 ≠
    ok (PInt 1) ∧
  odd_origin 6 = AugAssign (data_ref "x") Add (Name "y") ∧
  py_literal_eval (Name "y") = None ∧
  _parse_result odd_origin py_literal_eval py_json_serializable 6 =
    raise AttributeError ∧
  (∀ message node,
     _parse_result odd_origin py_literal_eval py_json_serializable 6 ≠
       raise (UnsupportedOperation message node)).
Proof. split_and!; done. Qed.

Lemma subscribe_status_checked_witness :
  get_subscribe_status spec_GET_VALUE_MAP (Str "success") = ok "success" ∧
  get_subscribe_status spec_GET_VALUE_MAP (Str "failure") = ok "failure" ∧
  get_subscribe_status spec_GET_VALUE_MAP (Str "maybe") =
    raise (UnsupportedOperation
             "Status must be one of success|failure. Provided: maybe"
             (AExpr (Str "maybe"))).
Proof.
  split_and!.
  - apply (subscribe_status_checked spec_GET_VALUE_MAP (Str "success"));
      [reflexivity | by left].
  - apply (subscribe_status_checked spec_GET_VALUE_MAP (Str "failure"));
      [reflexivity | by right].
  - apply (proj2 (proj1 (subscribe_status_checked spec_GET_VALUE_MAP (Str "maybe"))
                    "maybe" eq_refl)); discriminate.
Defined.

(** The counterexample to C10 as it is stated, on states that are neither
    the no-op marker nor an assignment.  In [update_graph] the state 8,
    [del x], has no call and no argument, and serializes with the empty
    mapping as [Result].  In [odd_graph] the state 1, [data["x"] += 1],
    does not serialize: [to_dict] raises [AttributeError], and sets neither
    [Result] nor [ResultPath]. *)
Lemma to_dict_not_call_counterexample :
  8 ∈ nodes update_graph ∧
  sample_origin 8 ≠ Pass ∧
  (∀ targets value, sample_origin 8 ≠ Assign targets value) ∧
  (∀ func args kws, sample_origin 8 ≠ Expr (Call func args kws)) ∧
  sample_to_dict update_graph 8 =
    ok (<[ "End" := PBool true ]>
          (<[ "ResultPath" := PStr "$" ]>
             (<[ "Result" := PDict [] ]> {[ "Type" := PStr "Pass" ]}))) ∧
  1 ∈ nodes odd_graph ∧
  odd_origin 1 ≠ Pass ∧
  (∀ targets value, odd_origin 1 ≠ Assign targets value) ∧
  odd_to_dict odd_graph 1 = raise AttributeError.
Proof.
  split_and!; try done.
  - simpl. unfold_elem. tauto.
  - simpl. unfold_elem. tauto.
Qed.

(** [data.update({"a": 2})], the state 5 of [update_graph]. *)
Lemma to_dict_update_call_witness :
  sample_to_dict update_graph 5 =
    ok (<[ "Next" := PStr "state" ]>
          (<[ "ResultPath" := PStr "$" ]>
             (<[ "Result" := PDict [(PStr "a", PInt 2)] ]>
                {[ "Type" := PStr "Pass" ]}))).
Proof.
  destruct (to_dict_update_call sample_origin py_literal_eval py_json_serializable
              doc_convert_input_data_ref (denylist_pattern sample_reserved_keys)
              sample_reserved_keys (spec_set_end_or_next sample_key) update_graph 5)
    as (Hcall & _ & _); [discriminate | discriminate |].
  etrans; [eapply Hcall; reflexivity | reflexivity].
Defined.

(** The end-to-end scenario of the spec: [pass] (a catch target),
    [data["x"] = 1], [pass], [data["y"] = {"a": 2}], wired in sequence as the
    states 4, 0, 1, 3.  Both no-ops have an outgoing edge and go; two states
    are left, the first with [Next], the second with [End]. *)
Example end_to_end_scenario :
  let g := mkDiGraph [4; 0; 1; 3] [(4, 0, ∅); (0, 1, ∅); (1, 3, ∅)] in
  let shaped := mkDiGraph [0; 3] [(0, 3, ∅)] in
  shaping_pass sample_origin g = ok shaped ∧
  sample_to_dict shaped 0 =
    ok (<[ "Next" := PStr "set-y" ]>
          (<[ "ResultPath" := PStr "$['x']" ]>
             (<[ "Result" := PInt 1 ]> {[ "Type" := PStr "Pass" ]}))) ∧
  sample_to_dict shaped 3 =
    ok (<[ "End" := PBool true ]>
          (<[ "ResultPath" := PStr "$['y']" ]>
             (<[ "Result" := PDict [(PStr "a", PInt 2)] ]>
                {[ "Type" := PStr "Pass" ]}))).
Proof. split_and!; vm_compute; reflexivity. Qed.

(** A no-op state that was elided is no longer in the graph: shaping it
    again raises, and so does the linkage of a state outside the graph. *)
Example shape_elided_state_again :
  shape_each sample_origin chain_graph [1; 1] = raise KeyError ∧
  sample_to_dict chain_graph 8 = raise KeyError.
Proof. split; vm_compute; reflexivity. Qed.

(** The denylist is matched whatever the case of the letters. *)
Example reserved_path_any_case :
  denylist_pattern sample_reserved_keys "$['RESULT']" = true ∧
  denylist_pattern sample_reserved_keys "$['resultpath']" = true ∧
  denylist_pattern sample_reserved_keys "$['foo']['bar']" = false.
Proof. split_and!; reflexivity. Qed.

(** The class docstring: [data["foo"] = {"bar": 123}]. *)
Example to_dict_docstring :
  to_dict (V:=pyvalue)
    (λ _, Assign [data_ref "foo"] (Dict [Some (Str "bar")] [Num 123]))
    py_literal_eval py_json_serializable doc_convert_input_data_ref
    (denylist_pattern sample_reserved_keys) sample_reserved_keys
    (λ _ _ data, ok data) (mkDiGraph [0] []) 0 =
    ok (<[ "ResultPath" := PStr "$['foo']" ]>
          (<[ "Result" := PDict [(PStr "bar", PInt 123)] ]>
             {[ "Type" := PStr "Pass" ]})).
Proof. vm_compute. reflexivity. Qed.


(* ================================================================== *)
(** * Further properties of the code *)

(** ** [PassState.shape]: when it returns, and what it leaves *)

Section ShapeOutcome.
Context {V : Type}.
Variable ast_node : node → stmt.
Implicit Types (g : DiGraph V) (self : node).

(** X1. On an elidable node [shape] returns when the node has no incoming
    edge or has one successor, and raises [NetworkXError] in every other
    case: two or more successors and an incoming edge. *)
Theorem shape_returns_or_raises g self :
  wf g → elidable ast_node g self →
  (in_edges g self = [] ∨ (∃ n, successors g self = [n]) →
   ∃ g', shape ast_node g self = ok g') ∧
  (in_edges g self ≠ [] → (∀ n, successors g self ≠ [n]) →
   ∃ msg subj, shape ast_node g self = raise (NetworkXError msg subj)).
Proof.
  intros Hwf He. pose proof He as [HP [v Hv]]%elidable_has_edge. split.
  - intros [Hin|[n Hn]].
    + rewrite shape_elide_source by done. eauto.
    + pose proof (proj1 (successors_singleton g self n Hwf) Hn) as Hn'.
      destruct (shape_elide_single ast_node g self n Hwf HP Hn') as (g' & -> & _).
      by exists g'.
  - intros Hin Hsucc.
    destruct (successors g self) as [|c [|d rest]] eqn:Hs.
    + apply elem_successors in Hv. rewrite Hs in Hv. by apply elem_of_nil in Hv.
    + by destruct (Hsucc c).
    + destruct (in_edges g self) as [|[m s] ins] eqn:Hi; [done|].
      assert ((m, s) ∈ in_edges g self) as [_ Hm]%elem_in_edges
        by (rewrite Hi; apply elem_of_cons; by left).
      pose proof (NoDup_successors g self Hwf) as Hnd. rewrite Hs in Hnd.
      apply NoDup_cons in Hnd as [Hcd _].
      apply (shape_fan_out_raises ast_node g self c d m); try done.
      * intros ->. apply Hcd. apply elem_of_cons; by left.
      * apply elem_successors. rewrite Hs. apply elem_of_cons; by left.
      * apply elem_successors. rewrite Hs. apply elem_of_cons; right.
        apply elem_of_cons; by left.
Qed.

(** X2. Eliding a no-op node with one successor [nxt]: the node and the
    edges at it go; every predecessor [x] gets the edge [x → nxt], with the
    attributes of [x → self] laid over those of an edge [x → nxt] that was
    there already (an existing edge is updated, not replaced); every other
    edge keeps its attributes. *)
Theorem shape_elides_single_successor g self nxt :
  wf g → ast_node self = Pass → successors g self = [nxt] →
  ∃ g', shape ast_node g self = ok g' ∧ wf g' ∧
    nodes g' = filter (λ m, m ≠ self) (nodes g) ∧
    (∀ x y, x = self ∨ y = self → get_edge g' x y = None) ∧
    (∀ x b, x ≠ self → nxt ≠ self → get_edge g x self = Some b →
       get_edge g' x nxt = Some (b ∪ default ∅ (get_edge g x nxt))) ∧
    (∀ x y, x ≠ self → y ≠ self → y ≠ nxt ∨ get_edge g x self = None →
       get_edge g' x y = get_edge g x y).
Proof.
  intros Hwf HP Hs0.
  pose proof (proj1 (successors_singleton g self nxt Hwf) Hs0) as Hs.
  destruct (shape_elide_single ast_node g self nxt Hwf HP Hs)
    as (g' & Hrun & Hwf' & Hnodes & Hget).
  exists g'. split_and!; [done | done | done | | |].
  - intros x y Hxy. rewrite Hget. by rewrite decide_True.
  - intros x b Hx Hn Hb. rewrite Hget.
    rewrite decide_False by (intros [?|?]; done).
    rewrite decide_True by (split; [done | by exists b]).
    by rewrite Hb.
  - intros x y Hx Hy Hother. rewrite Hget.
    rewrite decide_False by (intros [?|?]; done).
    rewrite decide_False; [done|]. intros [-> [b Hb]].
    destruct Hother as [?|Hnone]; [done | congruence].
Qed.

(** X3. Eliding a no-op node without incoming edges, whatever the number of
    its successors: no edge is added, the node goes with its outgoing edges,
    and that is all. *)
Theorem shape_without_predecessor g self :
  wf g → elidable ast_node g self → in_edges g self = [] →
  shape ast_node g self =
    ok {| nodes := filter (λ m, m ≠ self) (nodes g);
          edges := filter (λ e, e.1.1 ≠ self) (edges g) |}.
Proof. apply shape_elide_source. Qed.
End ShapeOutcome.

Section ShapeSequences.
Context {V : Type}.
Variable ast_node : node → stmt.
Implicit Types (g : DiGraph V) (self : node).

Lemma shape_no_new_ends g self g' x y :
  wf g → shape ast_node g self = ok g' → has_edge g' x y →
  (∃ y', has_edge g x y') ∧ (∃ x', has_edge g x' y).
Proof.
  intros Hwf [[_ ->]|(_ & _ & _ & Hhas)]%shape_inv Hxy; [eauto | | done].
  destruct (Hhas x y Hxy) as (_ & _ & [?|[? ?]]); eauto.
Qed.

Lemma shape_each_no_new_ends order : ∀ g g' x y,
  wf g → shape_each ast_node g order = ok g' → has_edge g' x y →
  (∃ y', has_edge g x y') ∧ (∃ x', has_edge g x' y).
Proof.
  induction order as [|self order IH]; intros g g' x y Hwf; csimpl.
  - intros [= <-]. eauto.
  - intros (g1 & Hstep & Hrest)%bindR_ok Hxy.
    pose proof (shape_wf ast_node g self g1 Hwf Hstep) as Hwf1.
    destruct (IH g1 g' x y Hwf1 Hrest Hxy) as [[y' Hy'] [x' Hx']].
    split.
    + by destruct (shape_no_new_ends g self g1 x y' Hwf Hstep Hy') as [? _].
    + by destruct (shape_no_new_ends g self g1 x' y Hwf Hstep Hx') as [_ ?].
Qed.

(** X4. What a successful elision leaves between the other nodes: the node
    is gone (one node less), the graph invariant holds, and [x → y] is an
    edge afterwards exactly when it was one before or [x → self → y] was a
    path, for [x] and [y] other than the elided node. *)
Theorem shape_elision_edges g self g' :
  wf g → elidable ast_node g self → shape ast_node g self = ok g' →
  wf g' ∧ nodes g' = filter (λ m, m ≠ self) (nodes g) ∧
  S (length (nodes g')) = length (nodes g) ∧
  ∀ x y, has_edge g' x y ↔
    x ≠ self ∧ y ≠ self ∧
    (has_edge g x y ∨ (has_edge g x self ∧ has_edge g self y)).
Proof.
  intros Hwf He Hrun.
  destruct (shape_elided ast_node g self g' Hwf He Hrun) as (Hwf' & Hn & Hhas).
  split_and!; [done | done | | done].
  rewrite Hn. apply length_filter_ne; [apply Hwf|].
  by apply (elidable_node ast_node).
Qed.

(** X5. Any sequence of [shape] calls that returns keeps the states: no
    node is added, every node that was not elidable is still there and
    still not elidable (a node whose origin is not [pass], in particular),
    a node without outgoing edges gets none and a node without incoming
    edges gets none. *)
Theorem shaping_keeps_states g (order : list node) g' :
  wf g → shape_each ast_node g order = ok g' →
  wf g' ∧
  (∀ x, x ∈ nodes g' → x ∈ nodes g) ∧
  (∀ x, x ∈ nodes g → retained ast_node g x →
        x ∈ nodes g' ∧ retained ast_node g' x) ∧
  (∀ x, x ∈ nodes g → ast_node x ≠ Pass → x ∈ nodes g') ∧
  (∀ x, (∀ y, ¬ has_edge g x y) → ∀ y, ¬ has_edge g' x y) ∧
  (∀ y, (∀ x, ¬ has_edge g x y) → ∀ x, ¬ has_edge g' x y).
Proof.
  intros Hwf Hrun.
  destruct (shape_each_inv ast_node order g g' Hwf Hrun) as (Hwf' & Hsub & Hkeep & _).
  split_and!; [done | done | | | |].
  - intros x Hx Hr. destruct (Hkeep x Hr). auto.
  - intros x Hx HP. apply Hkeep; [|done]. by intros [? _].
  - intros x Hno y Hxy.
    destruct (shape_each_no_new_ends order g g' x y Hwf Hrun Hxy) as [[y' Hy'] _].
    by apply (Hno y').
  - intros y Hno x Hxy.
    destruct (shape_each_no_new_ends order g g' x y Hwf Hrun Hxy) as [_ [x' Hx']].
    by apply (Hno x').
Qed.

(** X6. On a graph whose elidable nodes have one successor each, or no
    incoming edge, shaping nodes of the graph, each once and in any order,
    returns: the duplicate removal cannot occur, because an elision keeps
    that property of the graph.  The nodes that were shaped are not
    elidable afterwards. *)
Theorem shaping_returns_without_fan_out g (order : list node) :
  wf g → NoDup order → (∀ x, x ∈ order → x ∈ nodes g) →
  (∀ x, elidable ast_node g x →
     (∃ n, ∀ v, has_edge g x v ↔ v = n) ∨ (∀ m, ¬ has_edge g m x)) →
  ∃ g', shape_each ast_node g order = ok g' ∧ wf g' ∧
    (∀ x, elidable ast_node g' x →
       (∃ n, ∀ v, has_edge g' x v ↔ v = n) ∨ (∀ m, ¬ has_edge g' m x)) ∧
    (∀ x, x ∈ order → retained ast_node g' x).
Proof.
  intros Hwf Hnd Hin Hg.
  destruct (shape_each_returns ast_node order g Hwf Hnd Hin Hg)
    as (g' & Hrun & Hg').
  destruct (shape_each_inv ast_node order g g' Hwf Hrun) as (Hwf' & _ & _ & Hdone).
  by exists g'.
Qed.

(** X13. Two elisions commute, as far as nodes and connections go: eliding
    [p] then [q] and eliding [q] then [p] leave the same nodes and the same
    edges between them (the attributes laid over one another can differ). *)
Theorem shape_elisions_commute g (p q : node) g1 g12 g2 g21 :
  wf g → p ≠ q →
  elidable ast_node g p → shape ast_node g p = ok g1 →
  elidable ast_node g1 q → shape ast_node g1 q = ok g12 →
  elidable ast_node g q → shape ast_node g q = ok g2 →
  elidable ast_node g2 p → shape ast_node g2 p = ok g21 →
  (∀ x, x ∈ nodes g12 ↔ x ∈ nodes g21) ∧
  (∀ x y, has_edge g12 x y ↔ has_edge g21 x y).
Proof.
  intros Hwf Hpq Hp Hrun1 Hq1 Hrun12 Hq Hrun2 Hp2 Hrun21.
  destruct (shape_elided ast_node g p g1 Hwf Hp Hrun1) as (Hwf1 & Hn1 & H1).
  destruct (shape_elided ast_node g1 q g12 Hwf1 Hq1 Hrun12) as (_ & Hn12 & H12).
  destruct (shape_elided ast_node g q g2 Hwf Hq Hrun2) as (Hwf2 & Hn2 & H2).
  destruct (shape_elided ast_node g2 p g21 Hwf2 Hp2 Hrun21) as (_ & Hn21 & H21).
  assert (Hqp : q ≠ p) by (by intros ->).
  split.
  - intros x. rewrite Hn12, Hn21, Hn1, Hn2, !list_elem_of_filter. tauto.
  - intros x y. rewrite H12, H21, !H1, !H2. tauto.
Qed.
End ShapeSequences.

(** ** [PassState]: what the parsers and [to_dict] return and raise *)

Section SerializationOutcomes.
Context {V : Type}.
Variable ast_node : node → stmt.
Variable literal_eval : expr → option pyvalue.
Variable json_serializable : pyvalue → bool.
Variable convert_input_data_ref : expr → result string.
Variable INVALID_RESULT_PATH_PATTERN : string → bool.
Variable RESERVED_INPUT_DATA_KEYS : list string.
Variable _set_end_or_next :
  DiGraph V → node → gmap string pyvalue → result (gmap string pyvalue).
Implicit Types (g : DiGraph V) (self : node).

Local Abbreviation parse_result :=
  (_parse_result ast_node literal_eval json_serializable).
Local Abbreviation parse_result_path :=
  (_parse_result_path ast_node convert_input_data_ref
     INVALID_RESULT_PATH_PATTERN RESERVED_INPUT_DATA_KEYS).
Local Abbreviation serialize :=
  (to_dict ast_node literal_eval json_serializable convert_input_data_ref
     INVALID_RESULT_PATH_PATTERN RESERVED_INPUT_DATA_KEYS _set_end_or_next).

Lemma try_literal_ok source v :
  (result ← literal_eval source;
   if json_serializable result then Some result else None) = Some v →
  literal_eval source = Some v ∧ json_serializable v = true.
Proof.
  destruct (literal_eval source) as [r|]; csimpl; [|done].
  destruct (json_serializable r) eqn:E; [|done]. by intros [= <-].
Qed.

Lemma parse_result_cases self :
  (∃ source, parse_result self =
     match
       result ← literal_eval source;
       if json_serializable result then Some result else None
     with
     | Some result => ok result
     | None => raise (UnsupportedOperation not_json_message (AStmt (ast_node self)))
     end) ∨
  parse_result self = raise IndexError ∨
  parse_result self = raise TypeError ∨
  parse_result self = raise AttributeError.
Proof.
  unfold _parse_result.
  destruct (ast_node self) as [| ? ? | ? ? value | value | [value|] | ? | |];
    csimpl;
    try (left; eexists; reflexivity); try (right; right; right; reflexivity);
    (destruct value as [| | | | | | | | | | | | ? args ? | | |]; csimpl;
     try (right; right; right; reflexivity);
     try (right; right; left; reflexivity);
     destruct args; csimpl;
     [right; left; reflexivity | left; eexists; reflexivity]).
Qed.

(** The exception of [value.args[0]] is that of [_parse_result] and of
    [to_dict]. *)
Lemma first_arg_raises g self value e :
  stmt_value (ast_node self) = Some value →
  (∀ targets v, ast_node self ≠ Assign targets v) →
  first_arg value = raise e →
  parse_result self = raise e ∧ serialize g self = raise e.
Proof.
  intros Hval Hassign He.
  assert (parse_result self = raise e) as Hr.
  { unfold _parse_result.
    destruct (ast_node self) as [| targets v | | | | | |]; csimpl in Hval;
      try discriminate Hval.
    - by destruct (Hassign targets v).
    - injection Hval as <-. cbv beta iota delta [stmt_value]. by rewrite He.
    - injection Hval as <-. cbv beta iota delta [stmt_value]. by rewrite He.
    - injection Hval as <-. cbv beta iota delta [stmt_value]. by rewrite He. }
  split; [done|]. unfold to_dict. rewrite Hr.
  destruct (ast_node self); done.
Qed.

(** X7. What [_parse_result] returns is a literal value that [json.dumps]
    accepts; what it raises is [UnsupportedOperation] with the fixed message
    and the origin, or the [IndexError], [TypeError] or [AttributeError] of
    [value.args[0]], and for an assignment only the first of these. *)
Theorem parse_result_outcomes self :
  (∀ v, parse_result self = ok v →
        json_serializable v = true ∧ ∃ source, literal_eval source = Some v) ∧
  (∀ e, parse_result self = raise e →
        e = UnsupportedOperation not_json_message (AStmt (ast_node self)) ∨
        e = IndexError ∨ e = TypeError ∨ e = AttributeError) ∧
  (∀ targets value e,
     ast_node self = Assign targets value → parse_result self = raise e →
     e = UnsupportedOperation not_json_message (AStmt (ast_node self))).
Proof.
  split_and!.
  - intros v Hv. destruct (parse_result_cases self) as [[source Hs]|[Hs|[Hs|Hs]]];
      rewrite Hs in Hv; try done.
    destruct (_ ← literal_eval source; _) as [r|] eqn:E; [|done].
    injection Hv as ->. apply try_literal_ok in E as [? ?]. eauto.
  - intros e He. destruct (parse_result_cases self) as [[source Hs]|[Hs|[Hs|Hs]]];
      rewrite Hs in He.
    + destruct (_ ← literal_eval source; _); [done|]. injection He as <-. auto.
    + injection He as <-. auto.
    + injection He as <-. auto.
    + injection He as <-. auto.
  - intros targets value e Hnode. unfold _parse_result. rewrite Hnode. csimpl.
    destruct (_ ← literal_eval value; _); [done|]. by intros [= <-].
Qed.

(** X8. Outside the [try]: an origin that is not an assignment and has a
    [value] (a bare expression, an augmented assignment, a [return]) makes
    [_parse_result], and [to_dict] with it, raise [IndexError] when the
    value is a call without arguments, [TypeError] when it is a lambda, and
    [AttributeError] when it is anything else but a call, whatever the
    literal evaluation would give. *)
Theorem parse_result_without_argument g self value :
  stmt_value (ast_node self) = Some value →
  (∀ targets v, ast_node self ≠ Assign targets v) →
  (∀ func kws, value = Some (Call func [] kws) →
     parse_result self = raise IndexError ∧ serialize g self = raise IndexError) ∧
  (∀ params body, value = Some (Lambda params body) →
     parse_result self = raise TypeError ∧ serialize g self = raise TypeError) ∧
  ((∀ func args kws, value ≠ Some (Call func args kws)) →
   (∀ params body, value ≠ Some (Lambda params body)) →
   parse_result self = raise AttributeError ∧
   serialize g self = raise AttributeError).
Proof.
  intros Hval Hassign. split_and!.
  - intros func kws ->. by apply (first_arg_raises g self _ _ Hval).
  - intros params body ->. by apply (first_arg_raises g self _ _ Hval).
  - intros Hcall Hlambda. apply (first_arg_raises g self _ _ Hval); [done|].
    destruct value as [[| | | | | | | | | | | | func args kws | params body | |]|];
      try done.
    + by destruct (Hcall func args kws).
    + by destruct (Hlambda params body).
Qed.

(** X9. The value is parsed before the path: an assignment whose value is
    not a literal that [json.dumps] accepts makes [to_dict] raise the
    JSON error, whatever its targets are, reserved or unsupported ones
    included. *)
Theorem to_dict_value_error_first g self targets value :
  ast_node self = Assign targets value →
  literal_eval value = None ∨
    (∃ v, literal_eval value = Some v ∧ json_serializable v = false) →
  serialize g self =
    raise (UnsupportedOperation
             "Only JSON-serializeable values can be used to update the data object"
             (AStmt (ast_node self))).
Proof.
  intros Hnode Hbad. unfold to_dict, _parse_result. rewrite Hnode. csimpl.
  destruct Hbad as [->|(v & -> & Hjson)]; csimpl; [done|]. by rewrite Hjson.
Qed.

(** X10. What [_parse_result_path] returns: ["$"] for an origin that is not
    an assignment, without a look at the reserved pattern, and for an
    assignment the path of its first target, which the pattern does not
    match.  It raises only for an assignment: the error of the conversion,
    or [UnsupportedOperation] with the message on the reserved keys. *)
Theorem parse_result_path_outcomes self :
  (∀ p, parse_result_path self = ok p →
     ((∀ targets value, ast_node self ≠ Assign targets value) ∧ p = "$") ∨
     (∃ target targets value,
        ast_node self = Assign (target :: targets) value ∧
        convert_input_data_ref target = ok p ∧
        INVALID_RESULT_PATH_PATTERN p = false)) ∧
  (∀ e, parse_result_path self = raise e →
     ∃ targets value, ast_node self = Assign targets value ∧
       (targets = [] ∧ e = IndexError ∨
        (∃ target rest, targets = target :: rest ∧
           (convert_input_data_ref target = raise e ∨
            ∃ p, convert_input_data_ref target = ok p ∧
                 INVALID_RESULT_PATH_PATTERN p = true ∧
                 e = UnsupportedOperation
                       (reserved_keys_message RESERVED_INPUT_DATA_KEYS)
                       (AStmt (ast_node self)))))).
Proof.
  unfold _parse_result_path. split.
  - intros p. destruct (ast_node self) as [|targets value| | | | | |] eqn:Hnode;
      try (intros [= <-]; left; split; [intros ? ?; discriminate | done]).
    destruct targets as [|target targets]; csimpl; [done|].
    destruct (convert_input_data_ref target) as [|path] eqn:Hc; csimpl; [done|].
    destruct (INVALID_RESULT_PATH_PATTERN path) eqn:Hp; csimpl; [done|].
    intros [= <-]. right. by exists target, targets, value.
  - intros e. destruct (ast_node self) as [|targets value| | | | | |] eqn:Hnode;
      try done.
    intros H. exists targets, value. split; [done|].
    destruct targets as [|target targets]; csimpl in *.
    { left. split; [done|]. by injection H as <-. }
    right. exists target, targets. split; [done|].
    destruct (convert_input_data_ref target) as [err|path] eqn:Hc; csimpl in *.
    { left. by injection H as <-. }
    right. exists path.
    destruct (INVALID_RESULT_PATH_PATTERN path) eqn:Hp; csimpl in *; [|done].
    injection H as <-. done.
Qed.

End SerializationOutcomes.

(** ** The [status] option of [subscribe], as registered *)

Section RegistryFacts.
Variable GET_VALUE_MAP : ∀ t : pytype, expr → result (host t).

(** X12. The option [status] that the registry gives [subscribe], a
    decorator without [max_count]: its accessor is [get_subscribe_status],
    so on every node it yields the string ["success"] or ["failure"], or
    raises; and its default, ["success"], is one of the two. *)
Theorem subscribe_status_registered config option :
  assoc "subscribe" (RESOURCE_DECORATOR_MAP GET_VALUE_MAP) = Some config →
  assoc "status" (options config) = Some option →
  max_count config = None ∧
  default_value option = Default (PStr "success") ∧
  (∀ node v, get_value option node = ok v →
     GET_VALUE_MAP type_str node = ok "success" ∧ v = PStr "success" ∨
     GET_VALUE_MAP type_str node = ok "failure" ∧ v = PStr "failure") ∧
  (∀ node value, GET_VALUE_MAP type_str node = ok value →
     value = "success" ∨ value = "failure" →
     get_value option node = ok (PStr value)).
Proof.
  intros Hconfig Hoption. injection Hconfig as <-. injection Hoption as <-.
  split_and!; try reflexivity.
  - intros node v. csimpl. unfold get_subscribe_status.
    destruct (GET_VALUE_MAP type_str node) as [|value]; csimpl; [done|].
    case_bool_decide as Hin; csimpl; [|done]. intros [= <-].
    revert Hin. unfold_elem. intros [->|[->|[]]]; auto.
  - intros node value Hv Hin. csimpl. unfold get_subscribe_status.
    rewrite Hv. csimpl. rewrite bool_decide_eq_true_2; [done|].
    unfold_elem. tauto.
Qed.
End RegistryFacts.

(** ** The further properties on the sample inputs *)

(** Node 1 of [chain_graph] has one successor; node 1 of [fan_graph] has
    two and a predecessor. *)
Lemma shape_returns_or_raises_witness :
  (∃ g', shape sample_origin chain_graph 1 = ok g') ∧
  (∃ msg subj, shape sample_origin fan_graph 1 = raise (NetworkXError msg subj)).
Proof.
  split.
  - apply (shape_returns_or_raises sample_origin chain_graph 1 chain_graph_wf).
    + by apply elidableb_spec.
    + right. by exists 2.
  - apply (shape_returns_or_raises sample_origin fan_graph 1 fan_graph_wf).
    + by apply elidableb_spec.
    + discriminate.
    + intros n. discriminate.
Defined.

(** The edge [0 → 3] of [merge_graph] keeps its [Default] and takes the
    [Condition] of the edge [0 → 1]. *)
Lemma shape_elides_single_successor_witness :
  ∃ g', shape sample_origin merge_graph 1 = ok g' ∧
    get_edge g' 0 3 =
      Some ({[ "Condition" := PStr "c"; "Default" := PBool true ]}).
Proof.
  destruct (shape_elides_single_successor sample_origin merge_graph 1 3)
    as (g' & Hrun & _ & _ & _ & Hmerge & _);
    [apply merge_graph_wf | reflexivity | reflexivity |].
  exists g'. split; [done|].
  apply (Hmerge 0 branch_attrs); [discriminate | discriminate | reflexivity].
Defined.

Lemma shape_without_predecessor_witness :
  shape sample_origin start_graph 1 = ok (mkDiGraph [0; 3] []).
Proof.
  apply (shape_without_predecessor sample_origin start_graph 1 start_graph_wf).
  - by apply elidableb_spec.
  - reflexivity.
Defined.

Lemma shape_elision_edges_witness :
  wf merged_graph ∧
  nodes merged_graph = filter (λ m, m ≠ 1) (nodes merge_graph) ∧
  S (length (nodes merged_graph)) = length (nodes merge_graph) ∧
  ∀ x y, has_edge merged_graph x y ↔
    x ≠ 1 ∧ y ≠ 1 ∧
    (has_edge merge_graph x y ∨ (has_edge merge_graph x 1 ∧ has_edge merge_graph 1 y)).
Proof.
  apply (shape_elision_edges sample_origin merge_graph 1 merged_graph).
  - apply merge_graph_wf.
  - by apply elidableb_spec.
  - apply merge_graph_shaped.
Defined.

Lemma shaping_keeps_states_witness :
  wf shaped_chain_graph ∧
  (∀ x, x ∈ nodes shaped_chain_graph → x ∈ nodes chain_graph) ∧
  (∀ x, x ∈ nodes chain_graph → retained sample_origin chain_graph x →
        x ∈ nodes shaped_chain_graph ∧ retained sample_origin shaped_chain_graph x) ∧
  (∀ x, x ∈ nodes chain_graph → sample_origin x ≠ Pass → x ∈ nodes shaped_chain_graph) ∧
  (∀ x, (∀ y, ¬ has_edge chain_graph x y) → ∀ y, ¬ has_edge shaped_chain_graph x y) ∧
  (∀ y, (∀ x, ¬ has_edge chain_graph x y) → ∀ x, ¬ has_edge shaped_chain_graph x y).
Proof.
  apply (shaping_keeps_states sample_origin chain_graph (nodes chain_graph)
           shaped_chain_graph).
  - apply chain_graph_wf.
  - apply chain_graph_shaped.
Defined.

Lemma shaping_returns_without_fan_out_witness :
  ∃ g', shaping_pass sample_origin chain_graph = ok g' ∧ wf g' ∧
    (∀ x, elidable sample_origin g' x →
       (∃ n, ∀ v, has_edge g' x v ↔ v = n) ∨ (∀ m, ¬ has_edge g' m x)) ∧
    (∀ x, x ∈ nodes chain_graph → retained sample_origin g' x).
Proof.
  apply (shaping_returns_without_fan_out sample_origin chain_graph (nodes chain_graph)).
  - apply chain_graph_wf.
  - apply chain_graph_wf.
  - auto.
  - apply chain_graph_single_successor.
Defined.

Lemma parse_result_outcomes_witness :
  py_json_serializable (PDict [(PStr "a", PInt 2)]) = true ∧
  ∃ source, py_literal_eval source = Some (PDict [(PStr "a", PInt 2)]).
Proof.
  apply (parse_result_outcomes sample_origin py_literal_eval py_json_serializable 3).
  reflexivity.
Defined.

(** [data.update()], [lambda: 0] and [data["x"] += 1], the states 0, 5 and 1
    of [odd_graph]. *)
Lemma parse_result_without_argument_witness :
  odd_to_dict odd_graph 0 = raise IndexError ∧
  odd_to_dict odd_graph 5 = raise TypeError ∧
  odd_to_dict odd_graph 1 = raise AttributeError.
Proof.
  split_and!.
  - eapply (parse_result_without_argument odd_origin py_literal_eval
              py_json_serializable doc_convert_input_data_ref
              (denylist_pattern sample_reserved_keys) sample_reserved_keys
              (spec_set_end_or_next sample_key) odd_graph 0);
      [reflexivity | discriminate | reflexivity].
  - eapply (parse_result_without_argument odd_origin py_literal_eval
              py_json_serializable doc_convert_input_data_ref
              (denylist_pattern sample_reserved_keys) sample_reserved_keys
              (spec_set_end_or_next sample_key) odd_graph 5);
      [reflexivity | discriminate | reflexivity].
  - eapply (parse_result_without_argument odd_origin py_literal_eval
              py_json_serializable doc_convert_input_data_ref
              (denylist_pattern sample_reserved_keys) sample_reserved_keys
              (spec_set_end_or_next sample_key) odd_graph 1);
      [reflexivity | discriminate | discriminate | discriminate].
Defined.

(** [data["Result"] = undefined]: the value is refused before the reserved
    key is seen. *)
Lemma to_dict_value_error_first_witness :
  odd_to_dict odd_graph 4 =
    raise (UnsupportedOperation
             "Only JSON-serializeable values can be used to update the data object"
             (AStmt (odd_origin 4))).
Proof.
  apply (to_dict_value_error_first odd_origin py_literal_eval
           py_json_serializable doc_convert_input_data_ref
           (denylist_pattern sample_reserved_keys) sample_reserved_keys
           (spec_set_end_or_next sample_key) odd_graph 4
           [data_ref "Result"] (Name "undefined")).
  - reflexivity.
  - by left.
Defined.

Lemma parse_result_path_outcomes_witness :
  ((∀ targets value, sample_origin 0 ≠ Assign targets value) ∧ "$['x']" = "$") ∨
  (∃ target targets value,
     sample_origin 0 = Assign (target :: targets) value ∧
     doc_convert_input_data_ref target = ok "$['x']" ∧
     denylist_pattern sample_reserved_keys "$['x']" = false).
Proof.
  apply (parse_result_path_outcomes sample_origin doc_convert_input_data_ref
           (denylist_pattern sample_reserved_keys) sample_reserved_keys 0).
  reflexivity.
Defined.

(** The registered accessor on the literal ["failure"]. *)
Lemma subscribe_status_registered_witness :
  (do s <- get_subscribe_status spec_GET_VALUE_MAP (Str "failure"); ok (PStr s)) =
    ok (PStr "failure").
Proof.
  destruct (subscribe_status_registered spec_GET_VALUE_MAP _ _ eq_refl eq_refl)
    as (_ & _ & _ & Haccept).
  apply (Haccept (Str "failure") "failure"); [reflexivity | by right].
Defined.

Lemma shape_elisions_commute_witness :
  (∀ x, x ∈ nodes shaped_chain_graph ↔ x ∈ nodes shaped_chain_graph) ∧
  (∀ x y, has_edge shaped_chain_graph x y ↔ has_edge shaped_chain_graph x y).
Proof.
  apply (shape_elisions_commute sample_origin chain_graph 1 2
           chain_graph_without_1 shaped_chain_graph
           chain_graph_without_2 shaped_chain_graph).
  - apply chain_graph_wf.
  - discriminate.
  - by apply elidableb_spec.
  - vm_compute. reflexivity.
  - by apply elidableb_spec.
  - vm_compute. reflexivity.
  - by apply elidableb_spec.
  - vm_compute. reflexivity.
  - by apply elidableb_spec.
  - vm_compute. reflexivity.
Defined.
